(** * MDUS processing backbone: Redis job queue and document worker

    A shallow embedding of [app/services/queue_service.py] and
    [app/services/processing_worker.py] (with the parts of
    [app/services/file_storage.py] the worker calls), followed by the
    properties of the queue state machine and of the processing pipeline.

    Conventions of the embedding:
    - a Redis sorted set is the list of its (member, score) pairs in the
      order Redis serves them: ascending score, members of equal score in
      ascending byte order; ZADD, ZREM, ZRANGE and ZRANGEBYSCORE act on it
      as Redis documents them;
    - the key space [mdus:job:<id>] is a finite map from job ids to job
      records, a record standing for the JSON text that [json.dumps]
      wrote and [json.loads] reads back;
    - the 24 h expiry that [setex] puts on a record is the step
      [Expire] of the environment, which may be taken at any time: what is
      proved of all runs holds of the runs in which a record expires 24 h
      after its last write, and the runs given as examples are of that
      kind;
    - [datetime.utcnow()] is a parameter [now] of each operation, counted in
      microseconds; an operation that reads the clock twice reads the same
      value, and a date kept as an ISO string in a record is kept as the
      clock reading;
    - Python floats are rationals, kept in lowest terms where a result is
      stored;
    - the metrics counters ([mdus:metrics:*]) and the log are not part of
      the state: no operation reads them. *)

From Stdlib Require Import ZArith QArith Qround Qminmax List Sorted Permutation OrdersEx Ascii Lia Lqa.
From stdpp Require Import gmap strings list fin_maps pretty.

Open Scope Z_scope.
Set Warnings "-register-all".

(* ===================================================================== *)
(** ** Python values, exceptions *)
(* ===================================================================== *)

(** The values that flow through the worker's dictionaries: what
    [response.json()] can return, plus [datetime] objects, which
    [get_file_info] puts into its result. *)
Inductive pyval :=
| PNone
| PBool (b : bool)
| PInt (z : Z)
| PFloat (q : Q)
| PStr (s : string)
| PDatetime (t : Z)
| PList (l : list pyval)
| PDict (d : list (string * pyval)).

Inductive exn :=
| TypeError (msg : string)
| AttributeError (msg : string)
| HTTPException (status_code : Z) (detail : string)
| RequestError (msg : string).

Inductive outcome (A : Type) :=
| Returned (a : A)
| Raised (e : exn).
Arguments Returned {A} a.
Arguments Raised {A} e.

#[global] Instance outcome_ret : MRet outcome := fun A a => Returned a.

#[global] Instance outcome_bind : MBind outcome := fun A B k m =>
  match m with
  | Returned a => k a
  | Raised e => Raised e
  end.

(** [json.dumps] with the default encoder: [None], booleans, numbers,
    strings, lists and dictionaries are encoded; any other object, a
    [datetime] among them, raises [TypeError]. *)
Fixpoint json_ok (v : pyval) : bool :=
  match v with
  | PDatetime _ => false
  | PList l => forallb json_ok l
  | PDict d => forallb (fun kv => json_ok (snd kv)) d
  | _ => true
  end.

(** Dictionaries keep insertion order; [d[k] = v] replaces in place or
    appends. *)
Fixpoint dict_get (k : string) (d : list (string * pyval)) : option pyval :=
  match d with
  | [] => None
  | (k', v) :: d' => if String.eqb k' k then Some v else dict_get k d'
  end.

Fixpoint dict_set (k : string) (v : pyval) (d : list (string * pyval))
  : list (string * pyval) :=
  match d with
  | [] => [(k, v)]
  | (k', v') :: d' =>
      if String.eqb k' k then (k, v) :: d' else (k', v') :: dict_set k v d'
  end.

(** [obj.get(k, default)]: an attribute error on anything but a dict. *)
Definition py_get (obj : pyval) (k : string) (default : pyval) : outcome pyval :=
  match obj with
  | PDict d => Returned (match dict_get k d with Some v => v | None => default end)
  | _ => Raised (AttributeError "object has no attribute 'get'")
  end.

(** [len(obj)] *)
Definition py_len (obj : pyval) : outcome Z :=
  match obj with
  | PStr s => Returned (Z.of_nat (String.length s))
  | PList l => Returned (Z.of_nat (List.length l))
  | PDict d => Returned (Z.of_nat (List.length d))
  | _ => Raised (TypeError "object has no len()")
  end.

(** The numeric value of an operand of float arithmetic; [bool] is a
    subclass of [int]. *)
Definition py_num (obj : pyval) : outcome Q :=
  match obj with
  | PBool b => Returned (if b then 1%Q else 0%Q)
  | PInt z => Returned (inject_Z z)
  | PFloat q => Returned q
  | _ => Raised (TypeError "unsupported operand type(s)")
  end.

Definition Qlt_bool (a b : Q) : bool := negb (Qle_bool b a).

(** [min(a, b)]: [b] when [b < a], otherwise [a]. *)
Definition py_min (a b : Q) : Q := if Qlt_bool b a then b else a.

(** [round(x, 4)]: to the nearest multiple of 1/10000, a tie to the even
    one. *)
Definition round_half_even (x : Q) : Z :=
  let n := Qfloor x in
  let frac := (x - inject_Z n)%Q in
  if Qlt_bool frac (1 # 2) then n
  else if Qlt_bool (1 # 2) frac then n + 1
  else if Z.even n then n else n + 1.

Definition py_round4 (x : Q) : Q :=
  Qred (inject_Z (round_half_even (x * 10000)) / 10000)%Q.

(* ===================================================================== *)
(** ** Redis sorted sets *)
(* ===================================================================== *)

(** (member, score) pairs, in serving order. *)
Definition zset := list (string * Z).

Definition zltb (x y : string * Z) : bool :=
  (snd x <? snd y) ||
  ((snd x =? snd y) &&
   match String_as_OT.compare (fst x) (fst y) with Lt => true | _ => false end).

Fixpoint zinsert (x : string * Z) (z : zset) : zset :=
  match z with
  | [] => [x]
  | y :: z' => if zltb x y then x :: y :: z' else y :: zinsert x z'
  end.

(** ZREM key member *)
Definition zrem (member : string) (z : zset) : zset :=
  List.filter (fun y => negb (String.eqb (fst y) member)) z.

(** ZADD key score member: a member already present moves to its new
    score. *)
Definition zadd (member : string) (score : Z) (z : zset) : zset :=
  zinsert (member, score) (zrem member z).

(** ZRANGE key start stop WITHSCORES, for indices from the front. *)
Definition zrange (start stop : nat) (z : zset) : list (string * Z) :=
  firstn (stop + 1 - start) (skipn start z).

(** ZRANGEBYSCORE key min max WITHSCORES *)
Definition zrangebyscore (lo hi : Z) (z : zset) : list (string * Z) :=
  List.filter (fun y => (lo <=? snd y) && (snd y <=? hi)) z.

Definition zcard (z : zset) : Z := Z.of_nat (List.length z).

Definition zmembers (z : zset) : list string := map fst z.

Definition zmem (member : string) (z : zset) : bool :=
  existsb (fun y => String.eqb (fst y) member) z.

Definition zscore (member : string) (z : zset) : option Z :=
  match List.filter (fun y => String.eqb (fst y) member) z with
  | [] => None
  | y :: _ => Some (snd y)
  end.

(* ===================================================================== *)
(** ** Job records and the Redis state *)
(* ===================================================================== *)

(** The four values the [status] string takes. *)
Inductive Status := Queued | Processing | Completed | Failed.

Record ProcessingJob := mkJob {
  job_id : string;
  document_id : Z;
  file_path : string;
  document_type : string;
  status : Status;
  priority : Z;
  retry_count : Z;
  max_retries : Z;
  created_at : Z;
  started_at : option Z;
  completed_at : option Z;
  error_message : option string;
  result : option pyval
}.

Definition set_status (v : Status) (j : ProcessingJob) : ProcessingJob :=
  mkJob (job_id j) (document_id j) (file_path j) (document_type j) v
        (priority j) (retry_count j) (max_retries j) (created_at j)
        (started_at j) (completed_at j) (error_message j) (result j).

Definition set_retry_count (v : Z) (j : ProcessingJob) : ProcessingJob :=
  mkJob (job_id j) (document_id j) (file_path j) (document_type j) (status j)
        (priority j) v (max_retries j) (created_at j)
        (started_at j) (completed_at j) (error_message j) (result j).

Definition set_started_at (v : option Z) (j : ProcessingJob) : ProcessingJob :=
  mkJob (job_id j) (document_id j) (file_path j) (document_type j) (status j)
        (priority j) (retry_count j) (max_retries j) (created_at j)
        v (completed_at j) (error_message j) (result j).

Definition set_completed_at (v : option Z) (j : ProcessingJob) : ProcessingJob :=
  mkJob (job_id j) (document_id j) (file_path j) (document_type j) (status j)
        (priority j) (retry_count j) (max_retries j) (created_at j)
        (started_at j) v (error_message j) (result j).

Definition set_error_message (v : option string) (j : ProcessingJob) : ProcessingJob :=
  mkJob (job_id j) (document_id j) (file_path j) (document_type j) (status j)
        (priority j) (retry_count j) (max_retries j) (created_at j)
        (started_at j) (completed_at j) v (result j).

Definition set_result (v : option pyval) (j : ProcessingJob) : ProcessingJob :=
  mkJob (job_id j) (document_id j) (file_path j) (document_type j) (status j)
        (priority j) (retry_count j) (max_retries j) (created_at j)
        (started_at j) (completed_at j) (error_message j) v.

(** The settings the queue and the worker read. *)
Record Settings := mkSettings {
  max_concurrent_jobs : Z;
  job_timeout_minutes : Z;
  retry_attempts : Z
}.

Definition default_settings : Settings := mkSettings 5 30 3.

(** The keys of the queue service: four sorted sets and the job records. *)
Record Redis := mkRedis {
  pending_queue : zset;
  processing_queue : zset;
  completed_queue : zset;
  failed_queue : zset;
  job_data : gmap string ProcessingJob
}.

Definition empty_redis : Redis := mkRedis [] [] [] [] ∅.

Definition set_pending (z : zset) (r : Redis) : Redis :=
  mkRedis z (processing_queue r) (completed_queue r) (failed_queue r) (job_data r).

Definition set_processing (z : zset) (r : Redis) : Redis :=
  mkRedis (pending_queue r) z (completed_queue r) (failed_queue r) (job_data r).

Definition set_completed (z : zset) (r : Redis) : Redis :=
  mkRedis (pending_queue r) (processing_queue r) z (failed_queue r) (job_data r).

Definition set_failed (z : zset) (r : Redis) : Redis :=
  mkRedis (pending_queue r) (processing_queue r) (completed_queue r) z (job_data r).

Definition set_job_data (m : gmap string ProcessingJob) (r : Redis) : Redis :=
  mkRedis (pending_queue r) (processing_queue r) (completed_queue r) (failed_queue r) m.

(** The record of a job expires 24 h after it was last written. *)
Definition expire_key (id : string) (r : Redis) : Redis :=
  set_job_data (delete id (job_data r)) r.

(* ===================================================================== *)
(** ** QueueService *)
(* ===================================================================== *)

Definition _get_job_data (id : string) (r : Redis) : option ProcessingJob :=
  job_data r !! id.

(** [json.dumps(asdict(job))]: every field but [result] is a string, an
    integer or [None]. *)
Definition json_ok_job (job : ProcessingJob) : bool :=
  match result job with
  | None => true
  | Some v => json_ok v
  end.

Definition _save_job_data (job : ProcessingJob) (r : Redis) : outcome unit * Redis :=
  if json_ok_job job
  then (Returned tt, set_job_data (<[job_id job := job]> (job_data r)) r)
  else (Raised (TypeError "Object of type datetime is not JSON serializable"), r).

(** [id] is the value [uuid.uuid4()] returns. *)
Definition queue_document_processing (st : Settings) (now : Z) (id : string)
    (doc_id : Z) (path doc_type : string) (prio : Z) (r : Redis)
  : string * Redis :=
  let job := mkJob id doc_id path doc_type Queued prio 0 (retry_attempts st)
                   now None None None None in
  let r1 := set_job_data (<[id := job]> (job_data r)) r in
  let r2 := set_pending (zadd id (- prio) (pending_queue r1)) r1 in
  (id, r2).

Definition get_next_job (now : Z) (r : Redis)
  : outcome (option ProcessingJob) * Redis :=
  match zrange 0 0 (pending_queue r) with
  | [] => (Returned None, r)
  | (id, _) :: _ =>
      let r1 := set_pending (zrem id (pending_queue r)) r in
      let r2 := set_processing (zadd id now (processing_queue r1)) r1 in
      match _get_job_data id r2 with
      | None => (Returned None, r2)
      | Some job =>
          let job := set_started_at (Some now) (set_status Processing job) in
          match _save_job_data job r2 with
          | (Raised e, r3) => (Raised e, r3)
          | (Returned _, r3) => (Returned (Some job), r3)
          end
      end
  end.

Definition complete_job (now : Z) (id : string) (res : option pyval) (r : Redis)
  : outcome unit * Redis :=
  let r1 := set_processing (zrem id (processing_queue r)) r in
  let r2 := set_completed (zadd id now (completed_queue r1)) r1 in
  match _get_job_data id r2 with
  | None => (Returned tt, r2)
  | Some job =>
      let job := set_result res (set_completed_at (Some now)
                   (set_status Completed job)) in
      _save_job_data job r2
  end.

Definition fail_job (now : Z) (id : string) (msg : string) (retry : bool)
    (r : Redis) : outcome unit * Redis :=
  let r1 := set_processing (zrem id (processing_queue r)) r in
  match _get_job_data id r1 with
  | None => (Returned tt, r1)
  | Some job =>
      let job := set_completed_at (Some now) (set_error_message (Some msg)
                   (set_retry_count (retry_count job + 1) job)) in
      if retry && (retry_count job <? max_retries job)
      then
        let job := set_completed_at None (set_started_at None
                     (set_status Queued job)) in
        let r2 := set_pending
                    (zadd id (- (priority job - 1)) (pending_queue r1)) r1 in
        _save_job_data job r2
      else
        let job := set_status Failed job in
        let r2 := set_failed (zadd id now (failed_queue r1)) r1 in
        _save_job_data job r2
  end.

Definition get_job_status (id : string) (r : Redis) : option ProcessingJob :=
  _get_job_data id r.

Definition get_queue_stats (r : Redis) : Z * Z * Z * Z :=
  (zcard (pending_queue r), zcard (processing_queue r),
   zcard (completed_queue r), zcard (failed_queue r)).

Definition microseconds_per_minute : Z := 60000000.
Definition microseconds_per_day : Z := 86400000000.

(** [timeout_minutes or self.settings.job_timeout_minutes] *)
Definition effective_timeout (st : Settings) (timeout_minutes : option Z) : Z :=
  match timeout_minutes with
  | Some t => if t =? 0 then job_timeout_minutes st else t
  | None => job_timeout_minutes st
  end.

Definition timeout_message (timeout : Z) : string :=
  "Job timeout after " +:+ pretty timeout +:+ " minutes".

(** The loop over the stuck jobs; an exception of [fail_job] leaves it. *)
Fixpoint fail_each (now : Z) (msg : string) (ids : list (string * Z))
    (count : Z) (r : Redis) : outcome Z * Redis :=
  match ids with
  | [] => (Returned count, r)
  | (id, _) :: ids' =>
      match fail_job now id msg true r with
      | (Raised e, r') => (Raised e, r')
      | (Returned _, r') => fail_each now msg ids' (count + 1) r'
      end
  end.

Definition cleanup_stuck_jobs (st : Settings) (now : Z)
    (timeout_minutes : option Z) (r : Redis) : outcome Z * Redis :=
  let timeout := effective_timeout st timeout_minutes in
  let cutoff_timestamp := now - timeout * microseconds_per_minute in
  let stuck_jobs := zrangebyscore 0 cutoff_timestamp (processing_queue r) in
  fail_each now (timeout_message timeout) stuck_jobs 0 r.

Fixpoint purge_each (ids : list string) (count : Z) (r : Redis) : Z * Redis :=
  match ids with
  | [] => (count, r)
  | id :: ids' =>
      let r1 := set_job_data (delete id (job_data r)) r in
      let r2 := set_completed (zrem id (completed_queue r1)) r1 in
      let r3 := set_failed (zrem id (failed_queue r2)) r2 in
      purge_each ids' (count + 1) r3
  end.

Definition cleanup_old_jobs (now : Z) (days_old : Z) (r : Redis) : Z * Redis :=
  let cutoff_timestamp := now - days_old * microseconds_per_day in
  let old_completed := zmembers (zrangebyscore 0 cutoff_timestamp (completed_queue r)) in
  let old_failed := zmembers (zrangebyscore 0 cutoff_timestamp (failed_queue r)) in
  purge_each (old_completed ++ old_failed) 0 r.

(* ===================================================================== *)
(** ** get_next_job, one Redis command at a time *)
(* ===================================================================== *)

(** Where a caller of [get_next_job] stands between two awaited Redis
    commands, with the locals it holds there. *)
Inductive gnj_pc :=
| AtZrange
| AtZrem (id : string)
| AtZadd (id : string)
| AtGet (id : string)
| AtSetex (job : ProcessingJob)
| Finished (res : outcome (option ProcessingJob)).

(** One awaited command of [get_next_job]; Redis runs each command
    atomically, and another coroutine or process may run between two. *)
Definition gnj_step (now : Z) (pc : gnj_pc) (r : Redis) : gnj_pc * Redis :=
  match pc with
  | AtZrange =>
      match zrange 0 0 (pending_queue r) with
      | [] => (Finished (Returned None), r)
      | (id, _) :: _ => (AtZrem id, r)
      end
  | AtZrem id => (AtZadd id, set_pending (zrem id (pending_queue r)) r)
  | AtZadd id => (AtGet id, set_processing (zadd id now (processing_queue r)) r)
  | AtGet id =>
      match _get_job_data id r with
      | None => (Finished (Returned None), r)
      | Some job =>
          (AtSetex (set_started_at (Some now) (set_status Processing job)), r)
      end
  | AtSetex job =>
      match _save_job_data job r with
      | (Raised e, r') => (Finished (Raised e), r')
      | (Returned _, r') => (Finished (Returned (Some job)), r')
      end
  | Finished res => (Finished res, r)
  end.

Fixpoint gnj_steps (n : nat) (now : Z) (pc : gnj_pc) (r : Redis) : gnj_pc * Redis :=
  match n with
  | O => (pc, r)
  | S n' => let (pc', r') := gnj_step now pc r in gnj_steps n' now pc' r'
  end.

(** Several callers and a schedule: which caller runs its next command,
    and the clock it reads. *)
Fixpoint run_schedule (sched : list (nat * Z)) (pcs : list gnj_pc) (r : Redis)
  : list gnj_pc * Redis :=
  match sched with
  | [] => (pcs, r)
  | (i, now) :: sched' =>
      match pcs !! i with
      | None => run_schedule sched' pcs r
      | Some pc =>
          let (pc', r') := gnj_step now pc r in
          run_schedule sched' (<[i := pc']> pcs) r'
      end
  end.

Definition is_finished (pc : gnj_pc) : bool :=
  match pc with Finished _ => true | _ => false end.

Definition returned_id (pc : gnj_pc) : option string :=
  match pc with
  | Finished (Returned (Some job)) => Some (job_id job)
  | _ => None
  end.

(** Calls of [get_next_job] one after the other, one clock reading each. *)
Fixpoint dequeue_all (nows : list Z) (r : Redis)
  : list (outcome (option ProcessingJob)) * Redis :=
  match nows with
  | [] => ([], r)
  | now :: nows' =>
      let (res, r1) := get_next_job now r in
      let (rest, r2) := dequeue_all nows' r1 in
      (res :: rest, r2)
  end.

(** A producer's request: the id drawn for the job and the arguments of
    [queue_document_processing]. *)
Record Submission := mkSubmission {
  sub_id : string;
  sub_document_id : Z;
  sub_file_path : string;
  sub_document_type : string;
  sub_priority : Z
}.

Fixpoint enqueue_all (st : Settings) (now : Z) (subs : list Submission) (r : Redis)
  : Redis :=
  match subs with
  | [] => r
  | s :: subs' =>
      enqueue_all st now subs'
        (snd (queue_document_processing st now (sub_id s) (sub_document_id s)
                (sub_file_path s) (sub_document_type s) (sub_priority s) r))
  end.

Definition returned_job (res : outcome (option ProcessingJob)) : option ProcessingJob :=
  match res with
  | Returned (Some job) => Some job
  | _ => None
  end.

(** The ids a run of dequeues hands out, in order. *)
Definition dequeued_ids (rs : list (outcome (option ProcessingJob))) : list string :=
  omap (fun res => job_id <$> returned_job res) rs.

(* ===================================================================== *)
(** ** FileStorageService, as the worker uses it *)
(* ===================================================================== *)

Record FileStat := mkStat { st_size : Z; st_ctime : Z; st_mtime : Z }.

(** What lies outside the two services: the file system, the AI service
    behind [ai_service_client.post] (a call returns the decoded JSON body
    or raises), and the renderings of dates and exceptions as strings. *)
Record Env := mkEnv {
  path_stat : string -> option FileStat;
  path_name : string -> string;
  guess_type : string -> option string;
  make_processed_dir : Z -> outcome unit;
  shutil_move : string -> Z -> outcome string;
  post_classify : string -> outcome pyval;
  post_extract_text : string -> string -> outcome pyval;
  post_extract_entities : pyval -> string -> outcome pyval;
  isoformat : Z -> string;
  exn_str : exn -> string
}.

Definition get_file_info (E : Env) (path : string) : outcome pyval :=
  match path_stat E path with
  | None => Raised (HTTPException 404 "File not found")
  | Some st =>
      Returned (PDict
        [("filename", PStr (path_name E path));
         ("size", PInt (st_size st));
         ("created", PDatetime (st_ctime st));
         ("modified", PDatetime (st_mtime st));
         ("mime_type",
          match guess_type E path with Some m => PStr m | None => PNone end)])
  end.

Definition move_to_processed (E : Env) (source_path : string) (doc_id : Z)
  : outcome string :=
  match path_stat E source_path with
  | None => Raised (HTTPException 404 "Source file not found")
  | Some _ =>
      _ ← make_processed_dir E doc_id;
      match shutil_move E source_path doc_id with
      | Returned dest => Returned dest
      | Raised _ => Raised (HTTPException 500 "Failed to move file")
      end
  end.

(* ===================================================================== *)
(** ** DocumentProcessor *)
(* ===================================================================== *)

Definition str_in (s : string) (l : list string) : bool :=
  existsb (String.eqb s) l.

Definition unknown_types : list string := ["other"; "unknown"].

Definition medical_types : list string :=
  ["medical_report"; "prescription"; "laboratory_result"].

Definition _classify_document (E : Env) (path : string) : pyval :=
  match post_classify E path with
  | Returned v => v
  | Raised e =>
      PDict [("document_type", PStr "other");
             ("confidence", PFloat 0);
             ("error", PStr (exn_str E e))]
  end.

Definition _extract_text (E : Env) (path doc_type : string) : pyval :=
  match post_extract_text E path doc_type with
  | Returned v => v
  | Raised e =>
      PDict [("text", PStr "");
             ("confidence", PFloat 0);
             ("page_count", PInt 1);
             ("error", PStr (exn_str E e))]
  end.

Definition _extract_medical_entities (E : Env) (text : pyval) (doc_type : string)
  : pyval :=
  match post_extract_entities E text doc_type with
  | Returned v => v
  | Raised e =>
      PDict [("entities", PList []);
             ("entity_count", PInt 0);
             ("confidence", PFloat 0);
             ("error", PStr (exn_str E e))]
  end.

(** [(text_length / 1000) * 0.5 + extraction_confidence * 0.5], capped by
    [min(1.0, _)]. *)
Definition quality_score (text_length : Z) (c : Q) : Q :=
  py_min 1 (inject_Z text_length / 1000 * (1 # 2) + c * (1 # 2))%Q.

Definition quality_issues (text_length : Z) (c : Q) : list pyval :=
  (if text_length <? 100 then [PStr "Low text content"] else []) ++
  (if Qlt_bool c (7 # 10) then [PStr "Low extraction confidence"] else []).

Definition assessment (score : Q) : string :=
  if Qle_bool (7 # 10) score then "good"
  else if Qle_bool (1 # 2) score then "fair"
  else "poor".

Definition _assess_quality (E : Env) (path : string) (extraction_result : pyval)
  : pyval :=
  let body : outcome pyval :=
    text ← py_get extraction_result "text" (PStr "");
    text_length ← py_len text;
    extraction_confidence ← py_get extraction_result "confidence" (PFloat 0);
    c ← py_num extraction_confidence;
    let score := quality_score text_length c in
    mret (PDict
      [("quality_score", PFloat (py_round4 score));
       ("text_length", PInt text_length);
       ("extraction_confidence", extraction_confidence);
       ("quality_issues", PList (quality_issues text_length c));
       ("assessment", PStr (assessment score))]) in
  match body with
  | Returned v => v
  | Raised e =>
      PDict [("quality_score", PFloat 0);
             ("assessment", PStr "unknown");
             ("error", PStr (exn_str E e))]
  end.

(** [scores.append(result[key].get(field, 0.0))] when [key in result]. *)
Definition collect_score (key field : string) (res : list (string * pyval))
    (scores : list pyval) : outcome (list pyval) :=
  match dict_get key res with
  | None => mret scores
  | Some sub => v ← py_get sub field (PFloat 0); mret (scores ++ [v])
  end.

Fixpoint py_sum (scores : list pyval) : outcome Q :=
  match scores with
  | [] => mret 0%Q
  | v :: scores' => q ← py_num v; s ← py_sum scores'; mret (q + s)%Q
  end.

Definition _calculate_confidence_score (res : list (string * pyval))
  : outcome pyval :=
  scores ← collect_score "classification" "confidence" res [];
  scores ← collect_score "text_extraction" "confidence" res scores;
  scores ← collect_score "entity_extraction" "confidence" res scores;
  scores ← collect_score "quality_assessment" "quality_score" res scores;
  match scores with
  | [] => mret (PFloat 0)
  | _ =>
      total ← py_sum scores;
      mret (PFloat (Qred (total / inject_Z (Z.of_nat (List.length scores)))))
  end.

(** [processing_result["steps_completed"].append(step)] *)
Definition append_step (step : string) (res : list (string * pyval))
  : list (string * pyval) :=
  match dict_get "steps_completed" res with
  | Some (PList l) => dict_set "steps_completed" (PList (l ++ [PStr step])) res
  | _ => res
  end.

Definition _process_document (E : Env) (t_start t_end : Z) (job : ProcessingJob)
  : outcome pyval :=
  file_info ← get_file_info E (file_path job);
  let res :=
    [("job_id", PStr (job_id job));
     ("document_id", PInt (document_id job));
     ("document_type", PStr (document_type job));
     ("file_info", file_info);
     ("processing_started", PStr (isoformat E t_start));
     ("steps_completed", PList [])] in
  let res := append_step "file_validation" res in
  let res :=
    if str_in (document_type job) unknown_types
    then append_step "document_classification"
           (dict_set "classification" (_classify_document E (file_path job)) res)
    else res in
  let extraction_result := _extract_text E (file_path job) (document_type job) in
  let res := append_step "text_extraction"
               (dict_set "text_extraction" extraction_result res) in
  res ← (if str_in (document_type job) medical_types
         then
           text ← py_get extraction_result "text" (PStr "");
           mret (append_step "entity_extraction"
                   (dict_set "entity_extraction"
                      (_extract_medical_entities E text (document_type job)) res))
         else mret res);
  let quality_result := _assess_quality E (file_path job) extraction_result in
  let res := append_step "quality_assessment"
               (dict_set "quality_assessment" quality_result res) in
  let res := dict_set "processing_completed" (PStr (isoformat E t_end)) res in
  let res := dict_set "processing_time_seconds"
               (PFloat (Qred (inject_Z (t_end - t_start) / 1000000))) res in
  confidence ← _calculate_confidence_score res;
  mret (PDict (dict_set "confidence_score" confidence res)).

(** The executor of one job: the pipeline, then [complete_job] and the
    move of the file; any exception of the three leads to [fail_job]. *)
Definition _process_job (E : Env) (t_start t_end now : Z) (job : ProcessingJob)
    (r : Redis) : outcome unit * Redis :=
  match _process_document E t_start t_end job with
  | Raised e => fail_job now (job_id job) (exn_str E e) true r
  | Returned res =>
      match complete_job now (job_id job) (Some res) r with
      | (Raised e, r1) => fail_job now (job_id job) (exn_str E e) true r1
      | (Returned _, r1) =>
          match move_to_processed E (file_path job) (document_id job) with
          | Raised e => fail_job now (job_id job) (exn_str E e) true r1
          | Returned _ => (Returned tt, r1)
          end
      end
  end.

(** Whether a pipeline result records a step. *)
Definition step_ran (step : string) (res : pyval) : bool :=
  match res with
  | PDict d =>
      match dict_get "steps_completed" d with
      | Some (PList l) =>
          existsb (fun v => match v with PStr s => String.eqb s step | _ => false end) l
      | _ => false
      end
  | _ => false
  end.

Definition field (path : list string) (v : pyval) : option pyval :=
  fold_left (fun acc k =>
               match acc with
               | Some (PDict d) => dict_get k d
               | _ => None
               end) path (Some v).

(* ===================================================================== *)
(** ** Reachable states *)
(* ===================================================================== *)

(** The operations on the Redis state: those of [QueueService], and the
    expiry of a job record performed by Redis itself. *)
Inductive op :=
| Enqueue (st : Settings) (now : Z) (id : string) (doc_id : Z)
          (path doc_type : string) (prio : Z)
| Next (now : Z)
| Complete (now : Z) (id : string) (res : option pyval)
| Fail (now : Z) (id : string) (msg : string) (retry : bool)
| CleanupStuck (st : Settings) (now : Z) (timeout_minutes : option Z)
| CleanupOld (now : Z) (days_old : Z)
| Expire (id : string).

Definition step (o : op) (r : Redis) : Redis :=
  match o with
  | Enqueue st now id doc_id path doc_type prio =>
      snd (queue_document_processing st now id doc_id path doc_type prio r)
  | Next now => snd (get_next_job now r)
  | Complete now id res => snd (complete_job now id res r)
  | Fail now id msg retry => snd (fail_job now id msg retry r)
  | CleanupStuck st now tmo => snd (cleanup_stuck_jobs st now tmo r)
  | CleanupOld now days => snd (cleanup_old_jobs now days r)
  | Expire id => expire_key id r
  end.

Definition run (ops : list op) (r : Redis) : Redis :=
  fold_left (fun r o => step o r) ops r.

Definition reachable (r : Redis) : Prop :=
  exists ops, run ops empty_redis = r.

(** Every record sits under its own id. *)
Definition keyed (r : Redis) : Prop :=
  forall id job, job_data r !! id = Some job -> job_id job = id.

(** Every record is one [json.dumps] wrote. *)
Definition encodable (r : Redis) : Prop :=
  forall id job, job_data r !! id = Some job -> json_ok_job job = true.

Definition zlt (x y : string * Z) : Prop := zltb x y = true.

Definition zsorted (z : zset) : Prop := StronglySorted zlt z.

Definition in_index (id : string) (z : zset) : Prop := In id (zmembers z).

(** The job id is in one of the four indices. *)
Definition tracked (r : Redis) (id : string) : Prop :=
  in_index id (pending_queue r) \/ in_index id (processing_queue r) \/
  in_index id (completed_queue r) \/ in_index id (failed_queue r).

Definition terminal (s : Status) : Prop := s = Completed \/ s = Failed.

Definition status_of (r : Redis) (id : string) : option Status :=
  status <$> (job_data r !! id).

(** An index holds each member once, in serving order. *)
Definition zset_wf (z : zset) : Prop := zsorted z /\ List.NoDup (zmembers z).

Definition indices_wf (r : Redis) : Prop :=
  zset_wf (pending_queue r) /\ zset_wf (processing_queue r) /\
  zset_wf (completed_queue r) /\ zset_wf (failed_queue r).

(** Every pending id has a record to read. *)
Definition pending_backed (r : Redis) : Prop :=
  forall id, in_index id (pending_queue r) -> is_Some (job_data r !! id).

(** The callers of a run: one per pending id, none started. *)
Definition callers (r : Redis) : list gnj_pc :=
  replicate (List.length (pending_queue r)) AtZrange.

(** The ids a finished run of callers handed out are pairwise different
    and are those of the pending index. *)
Definition distinct_and_exhaustive (r : Redis) (pcs : list gnj_pc) : Prop :=
  exists ids,
    map returned_id pcs = map Some ids /\
    List.NoDup ids /\
    Permutation ids (zmembers (pending_queue r)).

(** No double dequeue, as the specification words it: under every
    schedule that lets the callers finish. *)
Definition no_double_dequeue (r : Redis) : Prop :=
  forall sched pcs r',
    run_schedule sched (callers r) r = (pcs, r') ->
    forallb is_finished pcs = true ->
    distinct_and_exhaustive r pcs.

(** The schedule without overlap: caller [i] runs its five commands, then
    caller [i + 1]. *)
Fixpoint serial (i : nat) (nows : list Z) : list (nat * Z) :=
  match nows with
  | [] => []
  | now :: nows' => replicate 5 (i, now) ++ serial (S i) nows'
  end.

(** Two callers of which the second runs its ZRANGE between the ZRANGE and
    the ZREM of the first. *)
Definition overlapping_schedule : list (nat * Z) :=
  [(0%nat, 20); (1%nat, 20); (0%nat, 21); (0%nat, 22); (0%nat, 23); (0%nat, 24);
   (1%nat, 25); (1%nat, 26); (1%nat, 27); (1%nat, 28)].

(** The two invariants speak of the job records only. *)
Definition store_inv (r : Redis) : Prop := keyed r /\ encodable r.

(** The state [get_next_job] leaves when it moved [id]. *)
Definition moved (now : Z) (id : string) (r : Redis) : Redis :=
  set_processing (zadd id now (processing_queue r))
    (set_pending (zrem id (pending_queue r)) r).

Definition started (now : Z) (job : ProcessingJob) : ProcessingJob :=
  set_started_at (Some now) (set_status Processing job).

(** [job] is what a dequeue makes of the record stored under the member
    of the index entry [y]. *)
Definition serves (r : Redis) (z : zset) (job : ProcessingJob) (y : string * Z)
  : Prop :=
  In y z /\ exists rec now, job_data r !! fst y = Some rec /\ job = started now rec.

(** The record [queue_document_processing] writes for a submission. *)
Definition initial_job (st : Settings) (now : Z) (s : Submission) : ProcessingJob :=
  mkJob (sub_id s) (sub_document_id s) (sub_file_path s) (sub_document_type s)
        Queued (sub_priority s) 0 (retry_attempts st) now None None None None.

(** The pending entry of a submission: ZADD with the negated priority. *)
Definition entry (s : Submission) : string * Z := (sub_id s, - sub_priority s).

(** The order in which [get_next_job] serves: higher priority first, jobs
    of equal priority by ascending job id. *)
Definition served_before (a b : ProcessingJob) : Prop :=
  priority a > priority b \/
  (priority a = priority b /\ String_as_OT.lt (job_id a) (job_id b)).

(** Serving order as the specification words it: descending priority,
    jobs of equal priority in the order they were enqueued. *)
Fixpoint spec_insert (s : Submission) (l : list Submission) : list Submission :=
  match l with
  | [] => [s]
  | t :: l' =>
      if sub_priority t <? sub_priority s then s :: t :: l'
      else t :: spec_insert s l'
  end.

Definition spec_dequeue_order (subs : list Submission) : list string :=
  map sub_id (fold_left (fun acc s => spec_insert s acc) subs []).

(** Priority order with first-in first-out ties, as stated: enqueues
    followed by as many dequeues serve in [spec_dequeue_order]. *)
Definition priority_then_fifo (subs : list Submission) : Prop :=
  forall st now nows,
    List.length nows = List.length subs ->
    dequeued_ids (fst (dequeue_all nows (enqueue_all st now subs empty_redis))) =
      spec_dequeue_order subs.

(** The record [fail_job] writes when it retries, and when it gives up. *)
Definition failed_once (now : Z) (msg : string) (job : ProcessingJob) : ProcessingJob :=
  set_completed_at (Some now) (set_error_message (Some msg)
    (set_retry_count (retry_count job + 1) job)).

Definition requeued_job (now : Z) (msg : string) (job : ProcessingJob) : ProcessingJob :=
  set_completed_at None (set_started_at None
    (set_status Queued (failed_once now msg job))).

Definition gave_up_job (now : Z) (msg : string) (job : ProcessingJob) : ProcessingJob :=
  set_status Failed (failed_once now msg job).

(** Failures of one job the way the worker meets them: the job is taken
    with [get_next_job] and reported with [fail_job]. The list holds the
    state after each failure. *)
Fixpoint failed_attempts (nows : list Z) (id msg : string) (r : Redis)
  : list Redis :=
  match nows with
  | [] => []
  | now :: nows' =>
      let r1 := snd (get_next_job now r) in
      let r2 := snd (fail_job now id msg true r1) in
      r2 :: failed_attempts nows' id msg r2
  end.

(** How many of the failures put the job back into the pending index. *)
Definition requeues (id : string) (states : list Redis) : nat :=
  List.length (List.filter (fun r => zmem id (pending_queue r)) states).

Definition enqueue (st : Settings) (now : Z) (s : Submission) (r : Redis) : Redis :=
  snd (queue_document_processing st now (sub_id s) (sub_document_id s)
         (sub_file_path s) (sub_document_type s) (sub_priority s) r).

(** Retry monotonicity, as the specification words it: with two retries
    allowed, three failures leave the job failed with a retry count of 2
    that never went above 2, two of the failures having requeued it. *)
Definition retry_claim (st : Settings) (s : Submission) : Prop :=
  retry_attempts st = 2 ->
  forall now nows msg,
    List.length nows = 3%nat ->
    let states := failed_attempts nows (sub_id s) msg (enqueue st now s empty_redis) in
    Forall (fun r => exists job, job_data r !! sub_id s = Some job /\
                                 retry_count job <= max_retries job) states /\
    (exists r job, last states = Some r /\ job_data r !! sub_id s = Some job /\
                   status job = Failed /\ retry_count job = 2) /\
    requeues (sub_id s) states = 2%nat.

(** Priority decay, as the specification words it: after the k-th retry
    the job is pending with its original priority minus k. *)
Definition decay_claim (st : Settings) (s : Submission) : Prop :=
  forall now nows msg k r,
    Z.of_nat (List.length nows) < retry_attempts st ->
    failed_attempts nows (sub_id s) msg (enqueue st now s empty_redis) !! k = Some r ->
    zscore (sub_id s) (pending_queue r) = Some (- (sub_priority s - Z.of_nat (S k))).

(** The operations that can move a job between states. *)
Definition status_op (o : op) : bool :=
  match o with
  | Next _ | Complete _ _ _ | Fail _ _ _ _ | CleanupStuck _ _ _ => true
  | _ => false
  end.

(** Terminal immutability, as the specification words it. *)
Definition terminal_immutable : Prop :=
  forall r id s o,
    reachable r ->
    status_of r id = Some s -> terminal s ->
    status_op o = true ->
    status_of (step o r) id = Some s.

(** The operation [o], run in state [r], is about the job [id]: it is
    called with that id, or it picks that id from an index. *)
Definition addresses (o : op) (r : Redis) (id : string) : Prop :=
  match o with
  | Complete _ id' _ => id' = id
  | Fail _ id' _ _ => id' = id
  | Next _ => exists sc, zrange 0 0 (pending_queue r) = [(id, sc)]
  | CleanupStuck st now tmo =>
      In id (zmembers
        (zrangebyscore 0
           (now - effective_timeout st tmo * microseconds_per_minute)
           (processing_queue r)))
  | Enqueue _ _ id' _ _ _ _ => id' = id
  | CleanupOld now days =>
      In id (zmembers (zrangebyscore 0 (now - days * microseconds_per_day)
                         (completed_queue r)) ++
             zmembers (zrangebyscore 0 (now - days * microseconds_per_day)
                         (failed_queue r)))
  | Expire id' => id' = id
  end.

(** Operations run one after the other, none of them about the job [id]. *)
Fixpoint untouched (id : string) (ops : list op) (r : Redis) : Prop :=
  match ops with
  | [] => True
  | o :: ops' => ~ addresses o r id /\ untouched id ops' (step o r)
  end.

(** [id] is in the same indices in [r] and in [r']. *)
Definition same_membership (id : string) (r r' : Redis) : Prop :=
  (in_index id (pending_queue r') <-> in_index id (pending_queue r)) /\
  (in_index id (processing_queue r') <-> in_index id (processing_queue r)) /\
  (in_index id (completed_queue r') <-> in_index id (completed_queue r)) /\
  (in_index id (failed_queue r') <-> in_index id (failed_queue r)).

(** [o] is a [queue_document_processing] that draws the id [id]. *)
Definition enqueues (id : string) (o : op) : bool :=
  match o with
  | Enqueue _ _ id' _ _ _ _ => String.eqb id' id
  | _ => false
  end.

(** A record under [id] in [r'] comes from one in [r] with the same
    priority. *)
Definition priority_kept (id : string) (r r' : Redis) : Prop :=
  forall job', job_data r' !! id = Some job' ->
    exists job, job_data r !! id = Some job /\ priority job' = priority job.

(** A job one can still see: its record is readable, and it is completed,
    failed, or in the pending or the processing index. *)
Definition observable (r : Redis) (id : string) : Prop :=
  exists job,
    job_data r !! id = Some job /\
    (terminal (status job) \/
     in_index id (pending_queue r) \/ in_index id (processing_queue r)).

Definition enqueued_in (ops : list op) (id : string) : Prop :=
  exists st now doc_id path doc_type prio,
    In (Enqueue st now id doc_id path doc_type prio) ops.

(** The old-job purge is the one operation meant to remove a job. *)
Definition purges (o : op) : bool :=
  match o with CleanupOld _ _ => true | _ => false end.

(** No job disappears silently, as the specification words it. *)
Definition no_silent_loss : Prop :=
  forall ops id,
    enqueued_in ops id ->
    forallb (fun o => negb (purges o)) ops = true ->
    observable (run ops empty_redis) id.

(** The operations that delete job records: the purge and the expiry. *)
Definition drops_records (o : op) : bool :=
  match o with CleanupOld _ _ | Expire _ => true | _ => false end.

(** Every job that has a record is in an index. *)
Definition backed_tracked (r : Redis) : Prop :=
  forall id job, job_data r !! id = Some job -> tracked r id.

(** Membership of [id] carries over from each index of [r] to the same
    index of [r']. *)
Definition carries (id : string) (r r' : Redis) : Prop :=
  (in_index id (pending_queue r) -> in_index id (pending_queue r')) /\
  (in_index id (processing_queue r) -> in_index id (processing_queue r')) /\
  (in_index id (completed_queue r) -> in_index id (completed_queue r')) /\
  (in_index id (failed_queue r) -> in_index id (failed_queue r')).

(** The store invariants together with [backed_tracked]. *)
Definition tracking_inv (r : Redis) : Prop := store_inv r /\ backed_tracked r.

(** The quality score as the specification words it: the length term is
    capped at 1 before it is weighted. *)
Definition spec_quality_score (text_length : Z) (c : Q) : Q :=
  Qmin 1 ((1 # 2) * Qmin 1 (inject_Z text_length / 1000) + (1 # 2) * c)%Q.

(** An extraction result with its two fields. *)
Definition extraction_of (text : string) (c : Q) : pyval :=
  PDict [("text", PStr text); ("confidence", PFloat c)].

(** The quality step, as the specification words it: the bucket is that of
    the specification's score. *)
Definition quality_claim : Prop :=
  forall E path text c,
    field ["assessment"] (_assess_quality E path (extraction_of text c)) =
      Some (PStr (assessment (spec_quality_score (Z.of_nat (String.length text)) c))).

(** A text made of [n] letters. *)
Fixpoint text_of_length (n : nat) : string :=
  match n with
  | O => EmptyString
  | S n' => String "a"%char (text_of_length n')
  end.

(** The type of the document after classification, as the specification
    words it: the classifier's answer when the job's type is unknown, the
    job's type otherwise. *)
Definition reclassified_type (E : Env) (job : ProcessingJob) : pyval :=
  if str_in (document_type job) unknown_types
  then match _classify_document E (file_path job) with
       | PDict d => match dict_get "document_type" d with Some v => v | None => PNone end
       | _ => PNone
       end
  else PStr (document_type job).

Definition is_medical (v : pyval) : bool :=
  match v with
  | PStr t => str_in t medical_types
  | _ => false
  end.

(** The entity step, as the specification words it: it runs exactly when
    the reclassified type is a structured medical one. *)
Definition entity_step_claim : Prop :=
  forall E t_start t_end job res,
    _process_document E t_start t_end job = Returned res ->
    (step_ran "entity_extraction" res = true <->
     is_medical (reclassified_type E job) = true).

(** Every call of the AI service raises. *)
Definition inference_down (E : Env) : Prop :=
  (forall path, exists e, post_classify E path = Raised e) /\
  (forall path doc_type, exists e, post_extract_text E path doc_type = Raised e) /\
  (forall text doc_type, exists e, post_extract_entities E text doc_type = Raised e).

(** An AI service that classifies everything as a medical report and
    extracts a short text. *)
Definition classifying_env : Env :=
  mkEnv (fun _ => Some (mkStat 2048 100 200)) (fun p => p)
        (fun _ => Some "application/pdf")
        (fun _ => Returned tt) (fun p _ => Returned p)
        (fun _ => Returned (PDict [("document_type", PStr "medical_report");
                                   ("confidence", PFloat (9 # 10))]))
        (fun _ _ => Returned (PDict [("text", PStr "blood pressure 120/80");
                                     ("confidence", PFloat (9 # 10))]))
        (fun _ _ => Returned (PDict [("entities", PList [PStr "blood pressure"]);
                                     ("entity_count", PInt 1);
                                     ("confidence", PFloat (8 # 10))]))
        (fun _ => "2024-01-01T00:00:00") (fun _ => "error").

(** An AI service that is down, in front of a file system that has the
    file. *)
Definition failing_env : Env :=
  mkEnv (fun _ => Some (mkStat 2048 100 200)) (fun p => p)
        (fun _ => Some "application/pdf")
        (fun _ => Returned tt) (fun p _ => Returned p)
        (fun _ => Raised (RequestError "connection refused"))
        (fun _ _ => Raised (RequestError "connection refused"))
        (fun _ _ => Raised (RequestError "connection refused"))
        (fun _ => "2024-01-01T00:00:00")
        (fun e => match e with
                  | TypeError m | AttributeError m | RequestError m => m
                  | HTTPException _ d => d
                  end).

(** The result of a pipeline run in which every step degraded: overall
    confidence 0, empty text, no entity, assessment poor. *)
Definition degraded (res : pyval) : Prop :=
  field ["confidence_score"] res = Some (PFloat 0) /\
  field ["text_extraction"; "text"] res = Some (PStr "") /\
  field ["text_extraction"; "confidence"] res = Some (PFloat 0) /\
  (forall ents, field ["entity_extraction"; "entities"] res = Some ents ->
                ents = PList []) /\
  field ["quality_assessment"; "assessment"] res = Some (PStr "poor").

(* ===================================================================== *)
(** ** The scheduling loop of the worker *)
(* ===================================================================== *)

(** What [_processing_loop] holds between two iterations: the set
    [self.processing_jobs] of the tasks it spawned (a task is named by a
    number, [fresh] being the next one) and the Redis state it talks to. *)
Record Loop := mkLoop {
  processing_jobs : list nat;
  fresh : nat;
  loop_redis : Redis
}.

(** One iteration of the [while self.is_running] loop, up to its sleep.
    [done t] is [t.done()] at the time of the iteration; the task created in
    the iteration has not run yet. An exception of [get_next_job] is caught
    by the loop. The second component is the job a task was spawned for. *)
Definition loop_iteration (st : Settings) (now : Z) (done : nat -> bool)
    (w : Loop) : Loop * option ProcessingJob :=
  if Z.of_nat (List.length (processing_jobs w)) <? max_concurrent_jobs st
  then
    match get_next_job now (loop_redis w) with
    | (Returned (Some job), r') =>
        (mkLoop (List.filter (fun t => negb (done t)) (processing_jobs w)
                   ++ [fresh w])
                (S (fresh w)) r',
         Some job)
    | (_, r') => (mkLoop (processing_jobs w) (fresh w) r', None)
    end
  else (w, None).

(** What happens around one iteration: the clock, which tasks are done, and
    what the running tasks and the other services did to Redis since the
    iteration before. *)
Record Tick := mkTick {
  tick_now : Z;
  tick_done : nat -> bool;
  tick_others : list op
}.

Fixpoint loop_run (st : Settings) (ticks : list Tick) (w : Loop) : Loop :=
  match ticks with
  | [] => w
  | t :: ticks' =>
      let w1 := mkLoop (processing_jobs w) (fresh w)
                       (run (tick_others t) (loop_redis w)) in
      loop_run st ticks' (fst (loop_iteration st (tick_now t) (tick_done t) w1))
  end.

(* ===================================================================== *)
(** ** Notions used by the further properties *)
(* ===================================================================== *)

(** The fields of a record that identify the job and its policy; the retry
    count may only have grown from [a] to [b]. *)
Definition same_identity (a b : ProcessingJob) : Prop :=
  job_id b = job_id a /\ document_id b = document_id a /\
  file_path b = file_path a /\ document_type b = document_type a /\
  priority b = priority a /\ max_retries b = max_retries a /\
  created_at b = created_at a /\ retry_count a <= retry_count b.

(** A record under [id] in [r'] comes from a record under [id] in [r] with
    the same identity. *)
Definition identity_kept (id : string) (r r' : Redis) : Prop :=
  forall job', job_data r' !! id = Some job' ->
    exists job, job_data r !! id = Some job /\ same_identity job job'.

(** What the status of a record says about the indices and the other
    fields. *)
Definition status_consistent (r : Redis) (id : string) (job : ProcessingJob)
  : Prop :=
  (status job = Queued ->
     in_index id (pending_queue r) /\
     started_at job = None /\ completed_at job = None /\
     (retry_count job = 0 \/ retry_count job < max_retries job)) /\
  (status job = Completed ->
     in_index id (completed_queue r) /\ completed_at job <> None) /\
  (status job = Failed ->
     in_index id (failed_queue r) /\
     completed_at job <> None /\ error_message job <> None).

Definition statuses_consistent (r : Redis) : Prop :=
  forall id job, job_data r !! id = Some job -> status_consistent r id job.

(** A result [json.dumps] can encode. *)
Definition encodable_result (res : option pyval) : bool :=
  match res with
  | None => true
  | Some v => json_ok v
  end.

(** The cutoffs of the two cleanups. *)
Definition stuck_cutoff (st : Settings) (now : Z) (timeout_minutes : option Z) : Z :=
  now - effective_timeout st timeout_minutes * microseconds_per_minute.

Definition old_cutoff (now : Z) (days_old : Z) : Z :=
  now - days_old * microseconds_per_day.

(** The steps a pipeline run records for a job of type [doc_type]. *)
Definition expected_steps (doc_type : string) : list string :=
  ["file_validation"] ++
  (if str_in doc_type unknown_types then ["document_classification"] else []) ++
  ["text_extraction"] ++
  (if str_in doc_type medical_types then ["entity_extraction"] else []) ++
  ["quality_assessment"].

(** A value is a number between 0 and 1. *)
Definition unit_score (v : pyval) : Prop :=
  exists q, py_num v = Returned q /\ (0 <= q <= 1)%Q.

(** [result[key].get(fld, 0.0)], where [key in result], is a number between
    0 and 1. *)
Definition scored (key fld : string) (res : list (string * pyval)) : Prop :=
  forall sub, dict_get key res = Some sub ->
    exists v, py_get sub fld (PFloat 0) = Returned v /\ unit_score v.

(** The Redis operations of the ticks, in order. *)
Definition others (ticks : list Tick) : list op :=
  concat (map tick_others ticks).

(** Membership of [id] in the pending, the completed and the failed index
    carries over from [r] to [r']. *)
Definition keeps_membership (id : string) (r r' : Redis) : Prop :=
  (in_index id (pending_queue r) -> in_index id (pending_queue r')) /\
  (in_index id (completed_queue r) -> in_index id (completed_queue r')) /\
  (in_index id (failed_queue r) -> in_index id (failed_queue r')).

(** [statuses_consistent] for every id but [id0]. *)
Definition consistent_but (id0 : string) (r : Redis) : Prop :=
  forall id job, id <> id0 -> job_data r !! id = Some job ->
                 status_consistent r id job.

(* ===================================================================== *)
(** * Properties *)
(* ===================================================================== *)

(** ** Sorted sets *)

Section ZsetFacts.

Implicit Types (x y : string * Z) (z : zset) (m id : string).

Lemma zlt_spec x y :
  zlt x y <->
  snd x < snd y \/ (snd x = snd y /\ String_as_OT.lt (fst x) (fst y)).
Proof.
  unfold zlt, zltb, String_as_OT.lt.
  rewrite orb_true_iff, andb_true_iff, Z.ltb_lt, Z.eqb_eq.
  destruct (String_as_OT.compare (fst x) (fst y)); intuition congruence.
Qed.

Lemma zlt_trans x y w : zlt x y -> zlt y w -> zlt x w.
Proof.
  rewrite !zlt_spec. intros [Hxy | [Exy Lxy]] [Hyw | [Eyw Lyw]].
  - left; lia.
  - left; lia.
  - left; lia.
  - right; split; [lia |].
    exact (StrictOrder_Transitive _ _ _ Lxy Lyw).
Qed.

Lemma zlt_total x y : fst x <> fst y -> ~ zlt x y -> zlt y x.
Proof.
  rewrite !zlt_spec. intros Hne Hn.
  destruct (Z.lt_trichotomy (snd x) (snd y)) as [H | [H | H]].
  - exfalso; apply Hn; now left.
  - right; split; [lia |].
    destruct (String_as_OT.compare_spec (fst x) (fst y)) as [E | L | G].
    + now elim Hne.
    + exfalso; apply Hn; right; now split.
    + exact G.
  - now left.
Qed.

Lemma in_zrem y m z : In y (zrem m z) <-> In y z /\ fst y <> m.
Proof.
  unfold zrem. rewrite filter_In, negb_true_iff.
  split; intros [H1 H2]; split; auto.
  - intros E. apply String.eqb_eq in E. congruence.
  - apply String.eqb_neq. exact H2.
Qed.

Lemma in_index_zrem id m z :
  in_index id (zrem m z) <-> in_index id z /\ id <> m.
Proof.
  unfold in_index, zmembers. rewrite !in_map_iff. split.
  - intros [y [E H]]. apply in_zrem in H as [H1 H2]. subst id. eauto.
  - intros [[y [E H]] Hne]. exists y. split; [exact E |].
    apply in_zrem. subst id. auto.
Qed.

Lemma zrem_fresh m z : ~ in_index m z -> zrem m z = z.
Proof.
  unfold in_index, zmembers, zrem. induction z as [| y z IH]; simpl; intros H.
  - reflexivity.
  - destruct (String.eqb_spec (fst y) m) as [E | N]; simpl.
    + elim H. now left.
    + f_equal. apply IH. intros Hin. apply H. now right.
Qed.

Lemma zrem_head m sc z : ~ in_index m z -> zrem m ((m, sc) :: z) = z.
Proof.
  intros H. unfold zrem. simpl. rewrite String.eqb_refl. simpl.
  apply zrem_fresh. exact H.
Qed.

Lemma zinsert_perm x z : Permutation (zinsert x z) (x :: z).
Proof.
  induction z as [| y z IH]; simpl.
  - reflexivity.
  - destruct (zltb x y).
    + reflexivity.
    + rewrite IH. apply perm_swap.
Qed.

Lemma in_zinsert y x z : In y (zinsert x z) <-> y = x \/ In y z.
Proof.
  split; intros H.
  - apply (Permutation_in _ (zinsert_perm x z)) in H. destruct H; auto.
  - apply (Permutation_in _ (Permutation_sym (zinsert_perm x z))).
    destruct H; [left | right]; auto.
Qed.

Lemma in_index_zadd id m sc z :
  in_index id (zadd m sc z) <-> id = m \/ in_index id z.
Proof.
  unfold zadd. split.
  - intros H. unfold in_index, zmembers in H. apply in_map_iff in H as [y [E H]].
    apply in_zinsert in H as [-> | H].
    + left. now subst id.
    + right. apply in_zrem in H as [H _]. subst id.
      apply in_map. exact H.
  - intros H. destruct (String.eqb_spec id m) as [E | N].
    + subst id. change m with (fst (m, sc)) at 1. apply in_map.
      apply in_zinsert. now left.
    + destruct H as [E | H]; [contradiction |].
      assert (Hr : in_index id (zrem m z)) by (apply in_index_zrem; auto).
      unfold in_index, zmembers in *.
      apply in_map_iff in Hr as [y [E Hy]]. subst id.
      apply in_map. apply in_zinsert. now right.
Qed.

Lemma zsorted_zrem m z : zsorted z -> zsorted (zrem m z).
Proof.
  unfold zsorted, zrem. induction 1 as [| y z Hs IH Hall]; simpl.
  - constructor.
  - destruct (negb (String.eqb (fst y) m)); [| exact IH].
    constructor; [exact IH |].
    rewrite List.Forall_forall in *. intros w Hw.
    apply filter_In in Hw as [Hw _]. auto.
Qed.

Lemma zsorted_zinsert x z :
  zsorted z -> ~ in_index (fst x) z -> zsorted (zinsert x z).
Proof.
  unfold zsorted. induction 1 as [| y z Hs IH Hall]; simpl; intros Hfresh.
  - repeat constructor.
  - assert (Hne : fst x <> fst y).
    { intros E. apply Hfresh. left. now rewrite E. }
    assert (Hz : ~ in_index (fst x) z).
    { intros Hin. apply Hfresh. now right. }
    destruct (zltb x y) eqn:Hxy.
    + constructor; [constructor; assumption |].
      constructor; [exact Hxy |].
      rewrite List.Forall_forall in *. intros w Hw.
      apply zlt_trans with y; [exact Hxy | auto].
    + constructor; [apply IH; exact Hz |].
      rewrite List.Forall_forall in *. intros w Hw.
      apply in_zinsert in Hw as [-> | Hw]; [| auto].
      apply zlt_total; [exact Hne |].
      unfold zlt. rewrite Hxy. discriminate.
Qed.

Lemma zsorted_zadd m sc z : zsorted z -> zsorted (zadd m sc z).
Proof.
  intros H. unfold zadd. apply zsorted_zinsert.
  - apply zsorted_zrem. exact H.
  - simpl. rewrite in_index_zrem. tauto.
Qed.

Lemma zmembers_zinsert_perm x z :
  Permutation (zmembers (zinsert x z)) (fst x :: zmembers z).
Proof.
  unfold zmembers. change (fst x :: map fst z) with (map fst (x :: z)).
  apply Permutation_map. apply zinsert_perm.
Qed.

Lemma nodup_zrem m z :
  List.NoDup (zmembers z) -> List.NoDup (zmembers (zrem m z)).
Proof.
  unfold zmembers, zrem. induction z as [| y z IH]; simpl; intros H.
  - constructor.
  - apply NoDup_cons_iff in H as [Hy Hz].
    destruct (negb (String.eqb (fst y) m)); simpl; [| auto].
    constructor; [| auto].
    intros Hin. apply Hy. apply in_map_iff in Hin as [w [E Hw]].
    apply filter_In in Hw as [Hw _]. rewrite <- E. now apply in_map.
Qed.

Lemma nodup_zadd m sc z :
  List.NoDup (zmembers z) -> List.NoDup (zmembers (zadd m sc z)).
Proof.
  intros H. unfold zadd.
  apply (Permutation_NoDup (Permutation_sym (zmembers_zinsert_perm _ _))).
  simpl. constructor.
  - change (~ in_index m (zrem m z)). rewrite in_index_zrem. tauto.
  - apply nodup_zrem. exact H.
Qed.

Lemma zscore_zinsert_fresh m sc z :
  ~ in_index m z -> zscore m (zinsert (m, sc) z) = Some sc.
Proof.
  unfold zscore, in_index, zmembers.
  induction z as [| y z IH]; simpl; intros H.
  - now rewrite String.eqb_refl.
  - destruct (zltb (m, sc) y); simpl.
    + now rewrite String.eqb_refl.
    + destruct (String.eqb_spec (fst y) m) as [E | N].
      * elim H. now left.
      * apply IH. intros Hin. apply H. now right.
Qed.

Lemma zscore_zadd m sc z : zscore m (zadd m sc z) = Some sc.
Proof.
  unfold zadd. apply zscore_zinsert_fresh. rewrite in_index_zrem. tauto.
Qed.

Lemma zscore_in_index m z sc : zscore m z = Some sc -> in_index m z.
Proof.
  unfold zscore, in_index, zmembers.
  destruct (List.filter _ z) as [| y l] eqn:E; [discriminate |].
  intros _.
  assert (Hy : In y (List.filter (fun y => String.eqb (fst y) m) z))
    by (rewrite E; now left).
  apply filter_In in Hy as [Hy Hm]. apply String.eqb_eq in Hm.
  rewrite <- Hm. now apply in_map.
Qed.

End ZsetFacts.

(** ** The job store under the queue operations *)

Section StoreFacts.

Implicit Types (r : Redis) (id : string) (job : ProcessingJob).

Lemma save_job_data_spec job r :
  (json_ok_job job = true /\
   _save_job_data job r =
     (Returned tt, set_job_data (<[job_id job := job]> (job_data r)) r)) \/
  (json_ok_job job = false /\ exists e, _save_job_data job r = (Raised e, r)).
Proof.
  unfold _save_job_data. destruct (json_ok_job job); [left | right]; eauto.
Qed.

Lemma keyed_insert job r :
  keyed r -> keyed (set_job_data (<[job_id job := job]> (job_data r)) r).
Proof.
  intros K id j. simpl. rewrite lookup_insert.
  case_decide as E.
  - intros [= <-]. exact E.
  - apply K.
Qed.

Lemma keyed_save job r : keyed r -> keyed (snd (_save_job_data job r)).
Proof.
  intros K. destruct (save_job_data_spec job r) as [[_ ->] | [_ [e ->]]]; simpl.
  - apply keyed_insert. exact K.
  - exact K.
Qed.

Lemma encodable_save job r : encodable r -> encodable (snd (_save_job_data job r)).
Proof.
  intros K. destruct (save_job_data_spec job r) as [[Hok ->] | [_ [e ->]]]; simpl.
  - intros id j. simpl. rewrite lookup_insert. case_decide.
    + intros [= <-]. exact Hok.
    + apply K.
  - exact K.
Qed.

Lemma store_inv_same r r' : job_data r' = job_data r -> store_inv r -> store_inv r'.
Proof.
  unfold store_inv, keyed, encodable. intros ->. tauto.
Qed.

Lemma store_inv_save job r : store_inv r -> store_inv (snd (_save_job_data job r)).
Proof.
  intros [K E]. split; [now apply keyed_save | now apply encodable_save].
Qed.

Lemma store_inv_delete id r :
  store_inv r -> store_inv (set_job_data (delete id (job_data r)) r).
Proof.
  intros [K E]. split; intros i j; simpl; rewrite lookup_delete_Some;
    intros [_ H]; eauto.
Qed.

Lemma store_inv_enqueue st now id doc_id path doc_type prio r :
  store_inv r ->
  store_inv (snd (queue_document_processing st now id doc_id path doc_type prio r)).
Proof.
  intros [K E]. unfold queue_document_processing. simpl.
  split; intros i j; simpl; rewrite lookup_insert; case_decide as Hid.
  - intros [= <-]. exact Hid.
  - apply K.
  - intros [= <-]. reflexivity.
  - apply E.
Qed.

Lemma store_inv_get_next_job now r :
  store_inv r -> store_inv (snd (get_next_job now r)).
Proof.
  intros I. unfold get_next_job.
  destruct (zrange 0 0 (pending_queue r)) as [| [id sc] l]; [exact I |].
  destruct (_get_job_data id _) as [job |] eqn:G.
  - match goal with
    | |- context [_save_job_data ?j ?s] =>
        pose proof (store_inv_save j s) as S;
        destruct (_save_job_data j s) as [[u | e] r3]
    end; simpl in *; apply S; (eapply store_inv_same; [| exact I]); reflexivity.
  - eapply store_inv_same; [| exact I]. reflexivity.
Qed.

Lemma store_inv_complete_job now id res r :
  store_inv r -> store_inv (snd (complete_job now id res r)).
Proof.
  intros I. unfold complete_job.
  destruct (_get_job_data id _) as [job |].
  - apply store_inv_save. eapply store_inv_same; [| exact I]. reflexivity.
  - eapply store_inv_same; [| exact I]. reflexivity.
Qed.

Lemma store_inv_fail_job now id msg retry r :
  store_inv r -> store_inv (snd (fail_job now id msg retry r)).
Proof.
  intros I. unfold fail_job.
  destruct (_get_job_data id _) as [job |].
  - destruct (retry && _); apply store_inv_save;
      (eapply store_inv_same; [| exact I]); reflexivity.
  - eapply store_inv_same; [| exact I]. reflexivity.
Qed.

Lemma store_inv_fail_each now msg ids : forall count r,
  store_inv r -> store_inv (snd (fail_each now msg ids count r)).
Proof.
  induction ids as [| [id sc] ids IH]; simpl; intros count r I.
  - exact I.
  - pose proof (store_inv_fail_job now id msg true r I) as S.
    destruct (fail_job now id msg true r) as [[u | e] r']; simpl in *.
    + apply IH. exact S.
    + exact S.
Qed.

Lemma store_inv_purge_each ids : forall count r,
  store_inv r -> store_inv (snd (purge_each ids count r)).
Proof.
  induction ids as [| id ids IH]; simpl; intros count r I.
  - exact I.
  - apply IH. eapply store_inv_same; [| apply (store_inv_delete id r I)].
    reflexivity.
Qed.

Lemma store_inv_step o r : store_inv r -> store_inv (step o r).
Proof.
  intros I. destruct o; simpl.
  - now apply store_inv_enqueue.
  - now apply store_inv_get_next_job.
  - now apply store_inv_complete_job.
  - now apply store_inv_fail_job.
  - now apply store_inv_fail_each.
  - now apply store_inv_purge_each.
  - now apply store_inv_delete.
Qed.

Lemma run_invariant (P : Redis -> Prop) :
  (forall o r, P r -> P (step o r)) ->
  forall ops r, P r -> P (run ops r).
Proof.
  intros Hstep ops. unfold run.
  induction ops as [| o ops IH]; simpl; intros r H; [exact H |].
  apply IH. apply Hstep. exact H.
Qed.

Lemma reachable_store_inv r : reachable r -> store_inv r.
Proof.
  intros [ops <-]. apply run_invariant.
  - apply store_inv_step.
  - split; intros id job; simpl; rewrite lookup_empty; discriminate.
Qed.

Lemma reachable_step o r : reachable r -> reachable (step o r).
Proof.
  intros [ops <-]. exists (ops ++ [o]). unfold run.
  rewrite fold_left_app. reflexivity.
Qed.

End StoreFacts.

(** ** get_next_job *)

Section Dequeue.

Implicit Types (r : Redis) (id : string) (job : ProcessingJob).

Lemma zrange_first z x :
  zrange 0 0 z = [x] <-> exists rest, z = x :: rest.
Proof.
  unfold zrange. simpl. destruct z as [| y z]; simpl.
  - split; [discriminate | intros [rest H]; discriminate].
  - rewrite firstn_O. split.
    + intros [= ->]. eauto.
    + intros [rest [= -> _]]. reflexivity.
Qed.

Lemma get_next_job_empty now r :
  pending_queue r = [] -> get_next_job now r = (Returned None, r).
Proof. intros H. unfold get_next_job. now rewrite H. Qed.

Lemma get_next_job_found now r id sc rest job :
  pending_queue r = (id, sc) :: rest ->
  job_data r !! id = Some job ->
  json_ok_job job = true ->
  get_next_job now r =
    (Returned (Some (started now job)),
     set_job_data (<[job_id job := started now job]> (job_data r)) (moved now id r)).
Proof.
  intros Hp Hj Hok.
  assert (Hz : zrange 0 0 (pending_queue r) = [(id, sc)])
    by (apply zrange_first; eauto).
  unfold get_next_job. rewrite Hz.
  unfold _get_job_data. simpl. rewrite Hj.
  unfold _save_job_data, json_ok_job. simpl.
  unfold json_ok_job in Hok. rewrite Hok. reflexivity.
Qed.

End Dequeue.

(** C10. When the id at the head of the pending index has no record in the
    job store, [get_next_job] still takes the id out of the pending index,
    puts it into the processing index with the current time as score, and
    returns no job; the record is still missing afterwards. *)
Theorem get_next_job_missing_record (now : Z) (r : Redis) (id : string) (sc : Z) :
  zrange 0 0 (pending_queue r) = [(id, sc)] ->
  _get_job_data id r = None ->
  fst (get_next_job now r) = Returned None /\
  let r' := snd (get_next_job now r) in
  pending_queue r' = zrem id (pending_queue r) /\
  ~ in_index id (pending_queue r') /\
  processing_queue r' = zadd id now (processing_queue r) /\
  in_index id (processing_queue r') /\
  zscore id (processing_queue r') = Some now /\
  completed_queue r' = completed_queue r /\
  failed_queue r' = failed_queue r /\
  job_data r' = job_data r /\
  _get_job_data id r' = None.
Proof.
  intros Hz Hg. unfold get_next_job. rewrite Hz.
  unfold _get_job_data in *. simpl. rewrite Hg. simpl.
  repeat split; try reflexivity.
  - rewrite in_index_zrem. tauto.
  - apply in_index_zadd. now left.
  - apply zscore_zadd.
  - exact Hg.
Qed.

Lemma get_next_job_missing_record_witness :
  let r := run [Enqueue default_settings 0 "job-1" 7 "/app/uploads/a.pdf" "other" 0;
                Expire "job-1"] empty_redis in
  let now := 25 * 60 * microseconds_per_minute in
  zrange 0 0 (pending_queue r) = [("job-1", 0)] /\
  _get_job_data "job-1" r = None /\
  fst (get_next_job now r) = Returned None /\
  processing_queue (snd (get_next_job now r)) = [("job-1", now)] /\
  pending_queue (snd (get_next_job now r)) = [].
Proof.
  intros r now.
  assert (Hz : zrange 0 0 (pending_queue r) = [("job-1", 0)]) by reflexivity.
  assert (Hg : _get_job_data "job-1" r = None) by (vm_compute; reflexivity).
  split; [exact Hz |]. split; [exact Hg |].
  destruct (get_next_job_missing_record now r "job-1" 0 Hz Hg)
    as (H1 & H2 & _ & H3 & _).
  split; [exact H1 |]. split.
  - rewrite H3. reflexivity.
  - rewrite H2. reflexivity.
Defined.

(** ** Dequeues that run one after the other *)

Section Serial.

Implicit Types (r : Redis) (id : string) (job : ProcessingJob) (z : zset).

Lemma dequeue_all_serves z : forall nows r,
  pending_queue r = z ->
  List.NoDup (zmembers z) ->
  store_inv r ->
  (forall id, in_index id z -> is_Some (job_data r !! id)) ->
  List.length nows = List.length z ->
  exists jobs,
    fst (dequeue_all nows r) = map (fun j => Returned (Some j)) jobs /\
    Forall2 (serves r z) jobs z /\
    pending_queue (snd (dequeue_all nows r)) = [].
Proof.
  induction z as [| [id sc] rest IH]; intros nows r Hp Hnd Hinv Hrec Hlen.
  - destruct nows; [| discriminate]. exists []. simpl. auto.
  - destruct nows as [| now nows]; [discriminate |].
    simpl in Hnd. apply NoDup_cons_iff in Hnd as [Hfresh Hnd].
    destruct (Hrec id) as [rec Hrec_id]; [now left |].
    destruct Hinv as [K E].
    pose proof (K _ _ Hrec_id) as Hid.
    pose proof (E _ _ Hrec_id) as Hok.
    pose proof (get_next_job_found now r id sc rest rec Hp Hrec_id Hok) as G.
    rewrite Hid in G.
    set (r1 := set_job_data (<[id := started now rec]> (job_data r)) (moved now id r)) in *.
    assert (Hp1 : pending_queue r1 = rest).
    { unfold r1, moved. simpl. rewrite Hp. apply zrem_head. exact Hfresh. }
    assert (Hinv1 : store_inv r1).
    { pose proof (store_inv_get_next_job now r (conj K E)) as S.
      rewrite G in S. exact S. }
    assert (Hother : forall id', in_index id' rest ->
                                 job_data r1 !! id' = job_data r !! id').
    { intros id' Hin. unfold r1. simpl. apply lookup_insert_ne.
      intros ->. contradiction. }
    destruct (IH nows r1 Hp1 Hnd Hinv1) as (jobs & Hres & Hall & Hempty).
    { intros id' Hin. rewrite (Hother id' Hin). apply Hrec. now right. }
    { simpl in Hlen. lia. }
    exists (started now rec :: jobs). simpl. rewrite G.
    destruct (dequeue_all nows r1) as [out r2]. simpl in *.
    split; [now rewrite Hres |]. split; [| exact Hempty].
    constructor.
    + split; [now left |]. exists rec, now. auto.
    + eapply Forall2_impl; [exact Hall |].
      intros j y [Hin (rec' & now' & Hl & Hj)].
      split; [now right |]. exists rec', now'. split; [| exact Hj].
      rewrite <- Hother; [exact Hl |].
      unfold in_index, zmembers. now apply in_map.
Qed.

Lemma serves_ids r z jobs :
  store_inv r -> Forall2 (serves r z) jobs z -> map job_id jobs = zmembers z.
Proof.
  intros [K _]. generalize z at 1. intros z0 H.
  induction H as [| j y jobs l [_ (rec & now & Hl & ->)] _ IH]; simpl.
  - reflexivity.
  - f_equal; [| exact IH]. apply (K _ _ Hl).
Qed.

End Serial.

(** ** The indices under the queue operations *)

Create HintDb zwf.

Section IndexFacts.

Implicit Types (r : Redis) (id : string) (z : zset).

Lemma zset_wf_zadd m sc z : zset_wf z -> zset_wf (zadd m sc z).
Proof. intros [S N]. split; [now apply zsorted_zadd | now apply nodup_zadd]. Qed.

Lemma zset_wf_zrem m z : zset_wf z -> zset_wf (zrem m z).
Proof. intros [S N]. split; [now apply zsorted_zrem | now apply nodup_zrem]. Qed.

Lemma zset_wf_nil : zset_wf [].
Proof. split; constructor. Qed.

#[local] Hint Resolve zset_wf_zadd zset_wf_zrem zset_wf_nil : zwf.

Lemma indices_wf_save job r :
  indices_wf r -> indices_wf (snd (_save_job_data job r)).
Proof.
  unfold _save_job_data. destruct (json_ok_job job); simpl; auto.
Qed.

Lemma indices_wf_enqueue st now id doc_id path doc_type prio r :
  indices_wf r ->
  indices_wf (snd (queue_document_processing st now id doc_id path doc_type prio r)).
Proof.
  intros (P & Q & C & F). unfold indices_wf. simpl. auto 6 with zwf.
Qed.

Lemma indices_wf_get_next_job now r :
  indices_wf r -> indices_wf (snd (get_next_job now r)).
Proof.
  intros (P & Q & C & F). unfold get_next_job.
  destruct (zrange 0 0 (pending_queue r)) as [| [id sc] l];
    [unfold indices_wf; auto |].
  assert (W : indices_wf (moved now id r))
    by (unfold indices_wf, moved; simpl; auto 6 with zwf).
  destruct (_get_job_data id _) as [job |]; [| exact W].
  match goal with
  | |- context [_save_job_data ?j ?s] =>
      pose proof (indices_wf_save j s W) as S;
      destruct (_save_job_data j s) as [[u | e] r3]
  end; exact S.
Qed.

Lemma indices_wf_complete_job now id res r :
  indices_wf r -> indices_wf (snd (complete_job now id res r)).
Proof.
  intros (P & Q & C & F). unfold complete_job.
  match goal with
  | |- context [_get_job_data id ?s] =>
      assert (W : indices_wf s) by (unfold indices_wf; simpl; auto 6 with zwf)
  end.
  destruct (_get_job_data id _) as [job |]; [| exact W].
  apply indices_wf_save. exact W.
Qed.

Lemma indices_wf_fail_job now id msg retry r :
  indices_wf r -> indices_wf (snd (fail_job now id msg retry r)).
Proof.
  intros (P & Q & C & F). unfold fail_job.
  destruct (_get_job_data id _) as [job |].
  - destruct (retry && _); apply indices_wf_save;
      unfold indices_wf; simpl; auto 6 with zwf.
  - unfold indices_wf; simpl; auto 6 with zwf.
Qed.

Lemma indices_wf_fail_each now msg ids : forall count r,
  indices_wf r -> indices_wf (snd (fail_each now msg ids count r)).
Proof.
  induction ids as [| [id sc] ids IH]; simpl; intros count r I.
  - exact I.
  - pose proof (indices_wf_fail_job now id msg true r I) as S.
    destruct (fail_job now id msg true r) as [[u | e] r']; simpl in *.
    + apply IH. exact S.
    + exact S.
Qed.

Lemma indices_wf_purge_each ids : forall count r,
  indices_wf r -> indices_wf (snd (purge_each ids count r)).
Proof.
  induction ids as [| id ids IH]; simpl; intros count r (P & Q & C & F).
  - unfold indices_wf; auto.
  - apply IH. unfold indices_wf; simpl; auto 6 with zwf.
Qed.

Lemma indices_wf_step o r : indices_wf r -> indices_wf (step o r).
Proof.
  intros I. destruct o; simpl.
  - now apply indices_wf_enqueue.
  - now apply indices_wf_get_next_job.
  - now apply indices_wf_complete_job.
  - now apply indices_wf_fail_job.
  - now apply indices_wf_fail_each.
  - now apply indices_wf_purge_each.
  - exact I.
Qed.

Lemma reachable_indices_wf r : reachable r -> indices_wf r.
Proof.
  intros [ops <-]. apply run_invariant.
  - apply indices_wf_step.
  - unfold indices_wf. simpl. auto with zwf.
Qed.

End IndexFacts.

(** ** Callers of get_next_job under a schedule *)

Section Schedules.

Implicit Types (r : Redis) (pc : gnj_pc) (pcs : list gnj_pc).

(** The five commands of one caller, run without interruption, are the
    function [get_next_job]. *)
Lemma gnj_steps_get_next_job now r :
  gnj_steps 5 now AtZrange r =
    (Finished (fst (get_next_job now r)), snd (get_next_job now r)).
Proof.
  unfold get_next_job. simpl.
  destruct (zrange 0 0 (pending_queue r)) as [| [id sc] l]; simpl; [reflexivity |].
  unfold moved. destruct (_get_job_data id _) as [job |]; simpl; [| reflexivity].
  destruct (_save_job_data _ _) as [[u | e] r3]; reflexivity.
Qed.

Lemma run_schedule_block n now i : forall sched pcs pc r,
  pcs !! i = Some pc ->
  run_schedule (replicate n (i, now) ++ sched) pcs r =
    run_schedule sched (<[i := fst (gnj_steps n now pc r)]> pcs)
                 (snd (gnj_steps n now pc r)).
Proof.
  induction n as [| n IH]; intros sched pcs pc r Hpc; simpl.
  - now rewrite list_insert_id.
  - rewrite Hpc. destruct (gnj_step now pc r) as [pc' r'] eqn:Hstep.
    rewrite (IH sched (<[i := pc']> pcs) pc' r').
    + now rewrite list_insert_insert_eq.
    + apply list_lookup_insert_eq. eapply lookup_lt_Some. exact Hpc.
Qed.

Lemma run_schedule_serial nows : forall finished r,
  run_schedule (serial (List.length finished) nows)
               (finished ++ replicate (List.length nows) AtZrange) r =
    (finished ++ map Finished (fst (dequeue_all nows r)),
     snd (dequeue_all nows r)).
Proof.
  induction nows as [| now nows IH]; intros finished r.
  - reflexivity.
  - cbn [List.length replicate dequeue_all].
    change (serial (List.length finished) (now :: nows))
      with (replicate 5 (List.length finished, now) ++
            serial (S (List.length finished)) nows).
    rewrite (run_schedule_block 5 now (List.length finished) _ _ AtZrange).
    2: { apply list_lookup_middle. reflexivity. }
    rewrite gnj_steps_get_next_job.
    destruct (get_next_job now r) as [res r1]. cbn [fst snd].
    replace (List.length finished) with (List.length finished + 0)%nat at 2 by lia.
    rewrite insert_app_r. cbn [insert list_insert].
    specialize (IH (finished ++ [Finished res]) r1).
    rewrite length_app, Nat.add_1_r, <- app_assoc in IH. simpl in IH.
    rewrite IH.
    destruct (dequeue_all nows r1) as [rest r2]. simpl.
    now rewrite <- app_assoc.
Qed.

End Schedules.




(** ** Enqueues followed by dequeues *)

Section PriorityOrder.

Variables (st : Settings) (now : Z).

Implicit Types (r : Redis) (s : Submission) (subs : list Submission).

Lemma enqueue_all_reachable subs : forall r,
  reachable r -> reachable (enqueue_all st now subs r).
Proof.
  induction subs as [| s subs IH]; simpl; intros r H; [exact H |].
  apply IH.
  exact (reachable_step
           (Enqueue st now (sub_id s) (sub_document_id s) (sub_file_path s)
                    (sub_document_type s) (sub_priority s)) r H).
Qed.

Lemma enqueue_all_pending subs : forall r,
  List.NoDup (map sub_id subs) ->
  (forall s, In s subs -> ~ in_index (sub_id s) (pending_queue r)) ->
  Permutation (pending_queue (enqueue_all st now subs r))
              (map entry subs ++ pending_queue r).
Proof.
  induction subs as [| s subs IH]; simpl; intros r Hnd Hfresh; [reflexivity |].
  apply NoDup_cons_iff in Hnd as [Hs Hnd].
  rewrite IH; [| exact Hnd |].
  - simpl. unfold zadd. rewrite zrem_fresh by (apply Hfresh; now left).
    rewrite zinsert_perm. symmetry. apply Permutation_middle.
  - intros s' Hin. simpl. rewrite in_index_zadd. intros [E | H].
    + apply Hs. rewrite <- E. now apply in_map.
    + apply (Hfresh s'); [now right | exact H].
Qed.

Lemma enqueue_all_store_other subs : forall r id,
  ~ In id (map sub_id subs) ->
  job_data (enqueue_all st now subs r) !! id = job_data r !! id.
Proof.
  induction subs as [| s subs IH]; simpl; intros r id Hid; [reflexivity |].
  rewrite IH by tauto. simpl. apply lookup_insert_ne. tauto.
Qed.

Lemma enqueue_all_store subs : forall r s,
  List.NoDup (map sub_id subs) ->
  In s subs ->
  job_data (enqueue_all st now subs r) !! sub_id s = Some (initial_job st now s).
Proof.
  induction subs as [| s0 subs IH]; simpl; intros r s Hnd Hin; [contradiction |].
  apply NoDup_cons_iff in Hnd as [Hs Hnd].
  destruct Hin as [-> | Hin].
  - rewrite enqueue_all_store_other by exact Hs. simpl.
    apply lookup_insert_eq.
  - apply IH; assumption.
Qed.

Lemma served_before_zlt (a b : ProcessingJob) :
  served_before a b <->
  zlt (job_id a, - priority a) (job_id b, - priority b).
Proof.
  rewrite zlt_spec. unfold served_before. simpl. split.
  - intros [H | [H1 H2]]; [left; lia | right; split; [lia | exact H2]].
  - intros [H | [H1 H2]]; [left; lia | right; split; [lia | exact H2]].
Qed.

Lemma serves_entries r z (l : list (string * Z)) jobs :
  keyed r ->
  (forall y rec, In y z -> job_data r !! fst y = Some rec -> priority rec = - snd y) ->
  Forall2 (serves r z) jobs l ->
  map (fun j => (job_id j, - priority j)) jobs = l.
Proof.
  intros K Hprio H.
  induction H as [| j y jobs l' [Hin (rec & t & Hl & ->)] _ IH]; simpl.
  - reflexivity.
  - f_equal; [| exact IH].
    rewrite (K _ _ Hl), (Hprio _ _ Hin Hl).
    destruct y; simpl; f_equal; lia.
Qed.

Lemma strongly_sorted_map {A B : Type} (R : B -> B -> Prop) (f : A -> B) l :
  StronglySorted R (map f l) -> StronglySorted (fun a b => R (f a) (f b)) l.
Proof.
  induction l as [| a l IH]; simpl; intros H.
  - constructor.
  - apply StronglySorted_inv in H as [Hs Hall]. constructor; [auto |].
    rewrite List.Forall_forall in *. intros b Hb. apply Hall. now apply in_map.
Qed.

Lemma strongly_sorted_impl {A : Type} (R R' : A -> A -> Prop) l :
  (forall a b, R a b -> R' a b) -> StronglySorted R l -> StronglySorted R' l.
Proof.
  intros Himp. induction 1 as [| a l Hs IH Hall]; constructor; [exact IH |].
  eapply List.Forall_impl; [| exact Hall]. apply Himp.
Qed.

End PriorityOrder.


(** The example of the specification: priorities 5, 1, 3 are served in the
    order 5, 3, 1. *)
Example priorities_5_1_3 :
  dequeued_ids
    (fst (dequeue_all [20; 30; 40]
       (enqueue_all default_settings 10
          [mkSubmission "job-x" 1 "/app/uploads/x.pdf" "other" 5;
           mkSubmission "job-y" 2 "/app/uploads/y.pdf" "other" 1;
           mkSubmission "job-z" 3 "/app/uploads/z.pdf" "other" 3]
          empty_redis))) = ["job-x"; "job-z"; "job-y"].
Proof. vm_compute. reflexivity. Qed.



(** ** fail_job and the retry policy *)

Section Retry.

Implicit Types (r : Redis) (id msg : string) (job rec : ProcessingJob).

Lemma fail_job_found now id msg retry r job :
  job_data r !! id = Some job ->
  json_ok_job job = true ->
  fail_job now id msg retry r =
    (Returned tt,
     if retry && (retry_count job + 1 <? max_retries job)
     then set_job_data (<[job_id job := requeued_job now msg job]> (job_data r))
            (set_pending (zadd id (- (priority job - 1)) (pending_queue r))
               (set_processing (zrem id (processing_queue r)) r))
     else set_job_data (<[job_id job := gave_up_job now msg job]> (job_data r))
            (set_failed (zadd id now (failed_queue r))
               (set_processing (zrem id (processing_queue r)) r))).
Proof.
  intros Hj Hok. unfold fail_job, _get_job_data. simpl. rewrite Hj. simpl.
  unfold json_ok_job in Hok.
  destruct (retry && _); unfold _save_job_data, json_ok_job; simpl;
    rewrite Hok; reflexivity.
Qed.

Lemma fail_job_missing now id msg retry r :
  job_data r !! id = None ->
  fail_job now id msg retry r =
    (Returned tt, set_processing (zrem id (processing_queue r)) r).
Proof.
  intros Hj. unfold fail_job, _get_job_data. simpl. now rewrite Hj.
Qed.

Lemma result_none_json_ok job : result job = None -> json_ok_job job = true.
Proof. unfold json_ok_job. now intros ->. Qed.

Lemma zrem_single id sc : zrem id [(id, sc)] = [].
Proof. unfold zrem. simpl. now rewrite String.eqb_refl. Qed.

(** A failure that is retried, for a job alone in the pending index. *)
Lemma retry_cycle now id msg r sc rec :
  pending_queue r = [(id, sc)] ->
  job_data r !! id = Some rec ->
  job_id rec = id ->
  result rec = None ->
  retry_count rec + 1 < max_retries rec ->
  let r' := snd (fail_job now id msg true (snd (get_next_job now r))) in
  pending_queue r' = [(id, - (priority rec - 1))] /\
  job_data r' !! id = Some (requeued_job now msg (started now rec)).
Proof.
  intros Hp Hj Hid Hres Hlt r'. subst r'.
  rewrite (get_next_job_found now r id sc [] rec Hp Hj (result_none_json_ok _ Hres)).
  cbn [snd]. rewrite Hid.
  rewrite (fail_job_found now id msg true _ (started now rec)).
  - cbn [snd andb]. replace (retry_count (started now rec) + 1 <? _) with true
      by (symmetry; apply Z.ltb_lt; exact Hlt).
    simpl. rewrite Hp, zrem_single, Hid. split; [reflexivity |].
    apply lookup_insert_eq.
  - simpl. apply lookup_insert_eq.
  - apply result_none_json_ok. exact Hres.
Qed.

(** A failure that exhausts the retries. *)
Lemma last_cycle now id msg r sc rec :
  pending_queue r = [(id, sc)] ->
  job_data r !! id = Some rec ->
  job_id rec = id ->
  result rec = None ->
  max_retries rec <= retry_count rec + 1 ->
  let r' := snd (fail_job now id msg true (snd (get_next_job now r))) in
  pending_queue r' = [] /\
  in_index id (failed_queue r') /\
  job_data r' !! id = Some (gave_up_job now msg (started now rec)).
Proof.
  intros Hp Hj Hid Hres Hge r'. subst r'.
  rewrite (get_next_job_found now r id sc [] rec Hp Hj (result_none_json_ok _ Hres)).
  cbn [snd]. rewrite Hid.
  rewrite (fail_job_found now id msg true _ (started now rec)).
  - cbn [snd andb]. replace (retry_count (started now rec) + 1 <? _) with false
      by (symmetry; apply Z.ltb_ge; exact Hge).
    simpl. rewrite Hp, zrem_single, Hid. split; [reflexivity |].
    split; [apply in_index_zadd; now left | apply lookup_insert_eq].
  - simpl. apply lookup_insert_eq.
  - apply result_none_json_ok. exact Hres.
Qed.

Lemma enqueue_alone st now s r :
  pending_queue r = [] ->
  pending_queue (enqueue st now s r) = [entry s] /\
  job_data (enqueue st now s r) !! sub_id s = Some (initial_job st now s).
Proof.
  intros Hp. unfold enqueue, queue_document_processing. simpl.
  rewrite Hp. split; [reflexivity | apply lookup_insert_eq].
Qed.

(** Retries of a job alone in the pending index, as long as retries are
    left: each leaves the job pending one below its stored priority, which
    stays what it was. *)
Lemma failed_attempts_retried id msg nows : forall r sc rec k r',
  pending_queue r = [(id, sc)] ->
  job_data r !! id = Some rec ->
  job_id rec = id ->
  result rec = None ->
  retry_count rec + Z.of_nat (List.length nows) < max_retries rec ->
  failed_attempts nows id msg r !! k = Some r' ->
  pending_queue r' = [(id, - (priority rec - 1))] /\
  exists rec',
    job_data r' !! id = Some rec' /\
    priority rec' = priority rec /\
    retry_count rec' = retry_count rec + Z.of_nat (S k) /\
    max_retries rec' = max_retries rec /\
    status rec' = Queued.
Proof.
  induction nows as [| now nows IH]; intros r sc rec k r' Hp Hj Hid Hres Hlt Hk.
  - destruct k; discriminate.
  - cbn [failed_attempts] in Hk. simpl List.length in Hlt.
    destruct (retry_cycle now id msg r sc rec Hp Hj Hid Hres) as [Hp1 Hj1]; [lia |].
    destruct k as [| k]; simpl in Hk.
    + injection Hk as <-. split; [exact Hp1 |].
      eexists. split; [exact Hj1 |]. simpl. repeat split; lia.
    + destruct (IH _ _ _ k r' Hp1 Hj1) as [Hp' (rec' & Hj' & Hpr & Hrc & Hmax & Hst)];
        try exact Hk; simpl; try assumption; try lia.
      simpl in *. split; [exact Hp' |].
      exists rec'. repeat split; try assumption; lia.
Qed.

End Retry.


(** A job alone in the pending index that fails and is retried: after
    its k-th retry, whatever k, it is pending with the priority it was
    enqueued with minus one, and the priority in its record is unchanged. *)
Lemma retries_alone_one_below (st : Settings) (s : Submission)
    (now : Z) (nows : list Z) (msg : string) (r0 : Redis) (k : nat) (r' : Redis) :
  pending_queue r0 = [] ->
  Z.of_nat (List.length nows) < retry_attempts st ->
  failed_attempts nows (sub_id s) msg (enqueue st now s r0) !! k = Some r' ->
  zscore (sub_id s) (pending_queue r') = Some (- (sub_priority s - 1)) /\
  exists rec,
    job_data r' !! sub_id s = Some rec /\
    priority rec = sub_priority s /\
    retry_count rec = Z.of_nat (S k) /\
    status rec = Queued.
Proof.
  intros Hp Hlt Hk.
  destruct (enqueue_alone st now s r0 Hp) as [Hp1 Hj1].
  assert (Hleft : retry_count (initial_job st now s) + Z.of_nat (List.length nows)
                  < max_retries (initial_job st now s)) by (simpl; lia).
  destruct (failed_attempts_retried (sub_id s) msg nows _ _ _ k r' Hp1 Hj1
              eq_refl eq_refl Hleft Hk)
    as [Hp' (rec & Hj & Hpr & Hrc & _ & Hst)].
  simpl in *. split.
  - rewrite Hp'. unfold zscore. simpl. now rewrite String.eqb_refl.
  - exists rec. repeat split; assumption.
Qed.


(** A job with [max_retries = 2], alone in the pending index: the first
    failure requeues it, the second ends it; one requeue in all. *)
Lemma two_failures_alone (st : Settings) (s : Submission)
    (now t1 t2 t3 : Z) (msg : string) (r0 : Redis) :
  retry_attempts st = 2 ->
  pending_queue r0 = [] ->
  let id := sub_id s in
  let states := failed_attempts [t1; t2] id msg (enqueue st now s r0) in
  exists ra rb ja jb,
    states = [ra; rb] /\
    job_data ra !! id = Some ja /\ status ja = Queued /\ retry_count ja = 1 /\
    in_index id (pending_queue ra) /\
    job_data rb !! id = Some jb /\ status jb = Failed /\ retry_count jb = 2 /\
    max_retries jb = 2 /\
    pending_queue rb = [] /\ in_index id (failed_queue rb) /\
    requeues id states = 1%nat /\
    get_next_job t3 rb = (Returned None, rb).
Proof.
  intros Hmax Hp. cbv zeta.
  destruct (enqueue_alone st now s r0 Hp) as [Hp1 Hj1].
  destruct (retry_cycle t1 (sub_id s) msg _ _ _ Hp1 Hj1) as [Hpa Hja];
    try reflexivity; [simpl; lia |].
  destruct (last_cycle t2 (sub_id s) msg _ _ _ Hpa Hja) as (Hpb & Hfb & Hjb);
    try reflexivity; [simpl; lia |].
  do 2 eexists. do 2 eexists.
  split; [reflexivity |].
  split; [exact Hja |]. split; [reflexivity |]. split; [reflexivity |].
  split; [rewrite Hpa; now left |].
  split; [exact Hjb |]. split; [reflexivity |]. split; [reflexivity |].
  split; [exact Hmax |].
  split; [exact Hpb |]. split; [exact Hfb |].
  split.
  - unfold requeues. cbn [failed_attempts List.filter]. rewrite Hpa, Hpb. simpl.
    now rewrite String.eqb_refl.
  - apply get_next_job_empty. exact Hpb.
Qed.

(** ** What an operation does to the other jobs *)

Section Frame.

Implicit Types (r : Redis) (id : string) (job : ProcessingJob).

Lemma save_indices job r :
  let r' := snd (_save_job_data job r) in
  pending_queue r' = pending_queue r /\
  processing_queue r' = processing_queue r /\
  completed_queue r' = completed_queue r /\
  failed_queue r' = failed_queue r.
Proof.
  unfold _save_job_data. destruct (json_ok_job job); simpl; auto.
Qed.

Lemma save_lookup_other job r id :
  job_id job <> id ->
  job_data (snd (_save_job_data job r)) !! id = job_data r !! id.
Proof.
  intros Hne. unfold _save_job_data. destruct (json_ok_job job); simpl.
  - now apply lookup_insert_ne.
  - reflexivity.
Qed.

Lemma save_lookup job r id :
  is_Some (job_data r !! id) ->
  is_Some (job_data (snd (_save_job_data job r)) !! id).
Proof.
  intros H. unfold _save_job_data. destruct (json_ok_job job); simpl; [| exact H].
  rewrite lookup_insert. case_decide; eauto.
Qed.

Lemma zrange_first_cases z :
  zrange 0 0 z = [] \/ exists x, zrange 0 0 z = [x].
Proof.
  unfold zrange. simpl. destruct z; simpl; [now left |].
  rewrite firstn_O. eauto.
Qed.

Lemma get_next_job_other now r id :
  keyed r ->
  ~ addresses (Next now) r id ->
  job_data (snd (get_next_job now r)) !! id = job_data r !! id.
Proof.
  intros K Hna. unfold get_next_job.
  destruct (zrange_first_cases (pending_queue r)) as [-> | [[id0 sc] Hz]];
    [reflexivity |].
  rewrite Hz.
  assert (Hne : id0 <> id).
  { intros ->. apply Hna. simpl. eauto. }
  unfold _get_job_data. simpl.
  destruct (job_data r !! id0) as [job |] eqn:Hj; [| reflexivity].
  match goal with
  | |- context [_save_job_data ?j ?s] =>
      pose proof (save_lookup_other j s id) as S;
      destruct (_save_job_data j s) as [[u | e] r3]
  end; simpl in *; apply S; rewrite (K _ _ Hj); exact Hne.
Qed.

Lemma complete_job_other now id0 res r id :
  keyed r -> id0 <> id ->
  job_data (snd (complete_job now id0 res r)) !! id = job_data r !! id.
Proof.
  intros K Hne. unfold complete_job, _get_job_data. simpl.
  destruct (job_data r !! id0) as [job |] eqn:Hj; [| reflexivity].
  rewrite save_lookup_other; [reflexivity |].
  simpl. rewrite (K _ _ Hj). exact Hne.
Qed.

Lemma fail_job_other now id0 msg retry r id :
  keyed r -> id0 <> id ->
  job_data (snd (fail_job now id0 msg retry r)) !! id = job_data r !! id.
Proof.
  intros K Hne. unfold fail_job, _get_job_data. simpl.
  destruct (job_data r !! id0) as [job |] eqn:Hj; [| reflexivity].
  destruct (retry && _); (rewrite save_lookup_other; [reflexivity |]);
    simpl; rewrite (K _ _ Hj); exact Hne.
Qed.

Lemma fail_each_other now msg ids id : forall count r,
  store_inv r ->
  ~ In id (map fst ids) ->
  job_data (snd (fail_each now msg ids count r)) !! id = job_data r !! id.
Proof.
  induction ids as [| [id0 sc] ids IH]; simpl; intros count r I Hid.
  - reflexivity.
  - pose proof (store_inv_fail_job now id0 msg true r I) as I'.
    pose proof (fail_job_other now id0 msg true r id (proj1 I)) as Ho.
    destruct (fail_job now id0 msg true r) as [[u | e] r']; simpl in *.
    + rewrite IH; [apply Ho | exact I' |]; tauto.
    + apply Ho. tauto.
Qed.

End Frame.




(** ** Jobs with a record stay in an index *)

Section Tracking.

Implicit Types (r : Redis) (id : string) (job : ProcessingJob).

Lemma tracked_carries id r r' : carries id r r' -> tracked r id -> tracked r' id.
Proof. unfold carries, tracked. tauto. Qed.

Lemma tracked_save job r id : tracked r id -> tracked (snd (_save_job_data job r)) id.
Proof.
  destruct (save_indices job r) as (P & Q & C & F).
  unfold tracked. rewrite P, Q, C, F. tauto.
Qed.

Lemma keep_zadd id m sc z : in_index id z -> in_index id (zadd m sc z).
Proof. intros H. apply in_index_zadd. now right. Qed.

Lemma keep_zrem id m z : m <> id -> in_index id z -> in_index id (zrem m z).
Proof. intros Hne H. apply in_index_zrem. split; [exact H | congruence]. Qed.

Lemma self_zadd id sc z : in_index id (zadd id sc z).
Proof. apply in_index_zadd. now left. Qed.

Lemma backed_tracked_enqueue st now id0 doc_id path doc_type prio r :
  backed_tracked r ->
  backed_tracked (snd (queue_document_processing st now id0 doc_id path doc_type prio r)).
Proof.
  intros B id job. unfold queue_document_processing. simpl.
  rewrite lookup_insert. case_decide as E.
  - intros _. subst id0. left. simpl. apply self_zadd.
  - intros Hj. apply (tracked_carries id r); [| exact (B _ _ Hj)].
    unfold carries. simpl. auto using keep_zadd.
Qed.

Lemma tracked_moved now id0 r id :
  id0 = id \/ tracked r id -> tracked (moved now id0 r) id.
Proof.
  intros [-> | H].
  - right; left. simpl. apply self_zadd.
  - destruct (String.eqb_spec id0 id) as [-> | Hne].
    + right; left. simpl. apply self_zadd.
    + revert H. apply tracked_carries. unfold carries. simpl.
      auto using keep_zadd, keep_zrem.
Qed.

Lemma backed_tracked_get_next_job now r :
  keyed r -> backed_tracked r -> backed_tracked (snd (get_next_job now r)).
Proof.
  intros K B. unfold get_next_job.
  destruct (zrange 0 0 (pending_queue r)) as [| [id0 sc] l]; [exact B |].
  change (set_processing _ _) with (moved now id0 r).
  unfold _get_job_data. simpl.
  destruct (job_data r !! id0) as [job0 |] eqn:Hj0.
  - intros id job Hj.
    match type of Hj with
    | context [_save_job_data ?j ?s] =>
        pose proof (tracked_save j s id) as T;
        pose proof (save_lookup_other j s id) as O;
        destruct (_save_job_data j s) as [[u | e] r3]
    end; simpl in *; apply T; apply tracked_moved;
      rewrite (K _ _ Hj0) in O;
      (destruct (String.eqb_spec id0 id) as [-> | Hne]; [now left | right]);
      rewrite (O Hne) in Hj; exact (B _ _ Hj).
  - intros id job Hj. apply tracked_moved. right. exact (B _ _ Hj).
Qed.

Lemma backed_tracked_complete_job now id0 res r :
  keyed r -> backed_tracked r -> backed_tracked (snd (complete_job now id0 res r)).
Proof.
  intros K B id job. unfold complete_job, _get_job_data. simpl.
  set (r2 := set_completed _ _).
  assert (T : id0 = id \/ tracked r id -> tracked r2 id).
  { intros [-> | H].
    - right; right; left. simpl. apply self_zadd.
    - destruct (String.eqb_spec id0 id) as [-> | Hne].
      + right; right; left. simpl. apply self_zadd.
      + revert H. apply tracked_carries. unfold carries. simpl.
        auto using keep_zadd, keep_zrem. }
  destruct (job_data r !! id0) as [job0 |] eqn:Hj0.
  - intros Hj. apply tracked_save. apply T.
    destruct (String.eqb_spec id0 id) as [-> | Hne]; [now left | right].
    rewrite save_lookup_other in Hj; [exact (B _ _ Hj) |].
    simpl. rewrite (K _ _ Hj0). exact Hne.
  - intros Hj. apply T. right. exact (B _ _ Hj).
Qed.

Lemma backed_tracked_fail_job now id0 msg retry r :
  keyed r -> backed_tracked r -> backed_tracked (snd (fail_job now id0 msg retry r)).
Proof.
  intros K B id job. unfold fail_job, _get_job_data. simpl.
  destruct (job_data r !! id0) as [job0 |] eqn:Hj0.
  - destruct (retry && _); intros Hj; apply tracked_save;
      (destruct (String.eqb_spec id0 id) as [-> | Hne];
       [ unfold tracked; simpl; auto using self_zadd |]);
      (rewrite save_lookup_other in Hj by (simpl; rewrite (K _ _ Hj0); exact Hne));
      generalize (B _ _ Hj); apply tracked_carries; unfold carries; simpl;
      auto using keep_zadd, keep_zrem.
  - simpl. intros Hj.
    destruct (String.eqb_spec id0 id) as [-> | Hne]; [congruence |].
    generalize (B _ _ Hj). apply tracked_carries. unfold carries. simpl.
    auto using keep_zrem.
Qed.

Lemma tracking_inv_fail_each now msg ids : forall count r,
  tracking_inv r -> tracking_inv (snd (fail_each now msg ids count r)).
Proof.
  induction ids as [| [id0 sc] ids IH]; simpl; intros count r [I B].
  - now split.
  - pose proof (store_inv_fail_job now id0 msg true r I) as I'.
    pose proof (backed_tracked_fail_job now id0 msg true r (proj1 I) B) as B'.
    destruct (fail_job now id0 msg true r) as [[u | e] r']; simpl in *.
    + apply IH. now split.
    + now split.
Qed.

Lemma tracking_inv_purge_each ids : forall count r,
  tracking_inv r -> tracking_inv (snd (purge_each ids count r)).
Proof.
  induction ids as [| id0 ids IH]; simpl; intros count r [I B].
  - now split.
  - apply IH. split.
    + eapply store_inv_same; [| apply (store_inv_delete id0 r I)]. reflexivity.
    + intros id job. simpl. rewrite lookup_delete_Some. intros [Hne Hj].
      generalize (B _ _ Hj). apply tracked_carries. unfold carries. simpl.
      auto using keep_zrem.
Qed.

Lemma tracking_inv_step o r : tracking_inv r -> tracking_inv (step o r).
Proof.
  intros [I B]. destruct o; simpl.
  - split; [now apply store_inv_enqueue | now apply backed_tracked_enqueue].
  - split; [now apply store_inv_get_next_job |].
    apply backed_tracked_get_next_job; [apply I | exact B].
  - split; [now apply store_inv_complete_job |].
    apply backed_tracked_complete_job; [apply I | exact B].
  - split; [now apply store_inv_fail_job |].
    apply backed_tracked_fail_job; [apply I | exact B].
  - apply tracking_inv_fail_each. now split.
  - apply tracking_inv_purge_each. now split.
  - split; [now apply store_inv_delete |].
    intros i job. simpl. rewrite lookup_delete_Some. intros [_ Hj].
    exact (B _ _ Hj).
Qed.

Lemma reachable_tracking_inv r : reachable r -> tracking_inv r.
Proof.
  intros [ops <-]. apply run_invariant.
  - apply tracking_inv_step.
  - split; [split |]; intros id job; simpl; rewrite lookup_empty; discriminate.
Qed.

(** Records are deleted by the purge and the expiry only. *)
Lemma fail_job_keeps_record now id0 msg retry r id :
  is_Some (job_data r !! id) ->
  is_Some (job_data (snd (fail_job now id0 msg retry r)) !! id).
Proof.
  intros H. unfold fail_job, _get_job_data. simpl.
  destruct (job_data r !! id0) as [job0 |]; [| exact H].
  destruct (retry && _); apply save_lookup; exact H.
Qed.

Lemma fail_each_keeps_record now msg ids id : forall count r,
  is_Some (job_data r !! id) ->
  is_Some (job_data (snd (fail_each now msg ids count r)) !! id).
Proof.
  induction ids as [| [id0 sc] ids IH]; simpl; intros count r H; [exact H |].
  pose proof (fail_job_keeps_record now id0 msg true r id H) as H'.
  destruct (fail_job now id0 msg true r) as [[u | e] r']; simpl in *; auto.
Qed.

Lemma step_keeps_record o r id :
  drops_records o = false ->
  is_Some (job_data r !! id) ->
  is_Some (job_data (step o r) !! id).
Proof.
  intros Hd H. destruct o; try discriminate Hd; simpl.
  - unfold queue_document_processing. simpl.
    rewrite lookup_insert. case_decide; eauto.
  - unfold get_next_job.
    destruct (zrange 0 0 (pending_queue r)) as [| [id0 sc] l]; [exact H |].
    unfold _get_job_data. simpl.
    destruct (job_data r !! id0) as [job0 |]; [| exact H].
    match goal with
    | |- context [_save_job_data ?j ?s] =>
        pose proof (save_lookup j s id H) as S;
        destruct (_save_job_data j s) as [[u | e] r3]
    end; exact S.
  - unfold complete_job, _get_job_data. simpl.
    destruct (job_data r !! id0) as [job0 |]; [| exact H].
    apply save_lookup. exact H.
  - apply fail_job_keeps_record. exact H.
  - apply fail_each_keeps_record. exact H.
Qed.

End Tracking.




(** ** The quality step *)

Section Quality.

Open Scope Q_scope.

Lemma Qlt_bool_iff (a b : Q) : Qlt_bool a b = true <-> a < b.
Proof.
  unfold Qlt_bool. rewrite negb_true_iff. split.
  - intros H. apply Qnot_le_lt. intros Hle.
    apply Qle_bool_iff in Hle. congruence.
  - intros H. destruct (Qle_bool b a) eqn:E; [| reflexivity].
    apply Qle_bool_iff in E. exfalso. exact (Qlt_not_le _ _ H E).
Qed.

Lemma Qlt_bool_false_iff (a b : Q) : Qlt_bool a b = false <-> b <= a.
Proof.
  unfold Qlt_bool. rewrite negb_false_iff. apply Qle_bool_iff.
Qed.

Lemma round_half_even_close (y : Q) :
  - (1 # 2) <= inject_Z (round_half_even y) - y <= 1 # 2.
Proof.
  unfold round_half_even.
  pose proof (Qfloor_le y) as Hlo.
  pose proof (Qlt_floor y) as Hhi.
  rewrite inject_Z_plus in Hhi. change (inject_Z 1) with 1 in Hhi.
  set (n := Qfloor y) in *.
  destruct (Qlt_bool (y - inject_Z n) (1 # 2)) eqn:A.
  - apply Qlt_bool_iff in A. lra.
  - apply Qlt_bool_false_iff in A.
    destruct (Qlt_bool (1 # 2) (y - inject_Z n)) eqn:B.
    + rewrite inject_Z_plus. change (inject_Z 1) with 1. lra.
    + apply Qlt_bool_false_iff in B.
      destruct (Z.even n); [lra |].
      rewrite inject_Z_plus. change (inject_Z 1) with 1. lra.
Qed.

(** [round(x, 4)] is within half a unit of the fourth decimal of [x]. *)
Lemma py_round4_close (x : Q) :
  - (1 # 20000) <= py_round4 x - x <= 1 # 20000.
Proof.
  unfold py_round4. rewrite Qred_correct.
  pose proof (round_half_even_close (x * 10000)) as H.
  set (n := inject_Z (round_half_even (x * 10000))) in *.
  assert (E : n / 10000 - x == (n - x * 10000) / 10000) by field.
  rewrite E. clear E.
  split.
  - apply Qle_shift_div_l; [reflexivity |]. lra.
  - apply Qle_shift_div_r; [reflexivity |]. lra.
Qed.

Lemma py_min_Qmin (a b : Q) : py_min a b == Qmin a b.
Proof.
  unfold py_min. destruct (Qlt_bool b a) eqn:E.
  - apply Qlt_bool_iff in E. symmetry. apply Q.min_r. now apply Qlt_le_weak.
  - apply Qlt_bool_false_iff in E. symmetry. apply Q.min_l. exact E.
Qed.

Lemma quality_score_Qmin (len : Z) (c : Q) :
  quality_score len c == Qmin 1 (inject_Z len / 1000 * (1 # 2) + c * (1 # 2)).
Proof. unfold quality_score. apply py_min_Qmin. Qed.

(** Up to a length of 1000 the code's score is the specification's. *)
Lemma quality_score_short (len : Z) (c : Q) :
  (len <= 1000)%Z -> quality_score len c == spec_quality_score len c.
Proof.
  intros Hlen. rewrite quality_score_Qmin. unfold spec_quality_score.
  assert (H : inject_Z len / 1000 <= 1).
  { apply Qle_shift_div_r; [reflexivity |].
    rewrite Qmult_1_l. change 1000 with (inject_Z 1000).
    rewrite <- Zle_Qle. exact Hlen. }
  rewrite (Q.min_r _ _ H).
  apply Q.min_compat; [reflexivity | ring].
Qed.

Lemma Qle_bool_false_iff (a b : Q) : Qle_bool a b = false <-> b < a.
Proof.
  rewrite <- Qlt_bool_iff. unfold Qlt_bool. now rewrite negb_true_iff.
Qed.

Lemma assessment_cases (score : Q) :
  (assessment score = "good"%string <-> 7 # 10 <= score) /\
  (assessment score = "fair"%string <-> 1 # 2 <= score /\ score < 7 # 10) /\
  (assessment score = "poor"%string <-> score < 1 # 2).
Proof.
  unfold assessment.
  destruct (Qle_bool (7 # 10) score) eqn:G.
  - apply Qle_bool_iff in G.
    repeat split; try discriminate; try (intros; exact G).
    + intros [_ H]. exfalso. exact (Qlt_not_le _ _ H G).
    + intros H. exfalso. apply (Qlt_not_le _ _ H).
      eapply Qle_trans; [| exact G]. discriminate.
  - apply Qle_bool_false_iff in G.
    destruct (Qle_bool (1 # 2) score) eqn:F.
    + apply Qle_bool_iff in F.
      repeat split; try discriminate; try assumption.
      * intros H. exfalso. exact (Qlt_not_le _ _ G H).
      * intros H. exfalso. exact (Qlt_not_le _ _ H F).
    + apply Qle_bool_false_iff in F.
      repeat split; try discriminate; try (intros; assumption).
      * intros H. exfalso. exact (Qlt_not_le _ _ G H).
      * intros [H _]. exfalso. exact (Qlt_not_le _ _ F H).
Qed.

Lemma quality_issues_iff (len : Z) (c : Q) :
  quality_issues len c <> [] <-> (len < 100)%Z \/ c < 7 # 10.
Proof.
  unfold quality_issues.
  destruct (Z.ltb_spec len 100) as [Hl | Hl];
    destruct (Qlt_bool c (7 # 10)) eqn:Hc; simpl.
  - split; [intros _; now left | discriminate].
  - split; [intros _; now left | discriminate].
  - apply Qlt_bool_iff in Hc. split; [intros _; now right | discriminate].
  - apply Qlt_bool_false_iff in Hc. split; [congruence |].
    intros [H | H]; [lia |]. exfalso. exact (Qlt_not_le _ _ H Hc).
Qed.

End Quality.




(** ** The pipeline *)

Section Pipeline.

Implicit Types (E : Env) (job : ProcessingJob) (res : pyval).

Ltac outcome_simpl := cbn [mbind outcome_bind mret outcome_ret].

(** Which steps a finished pipeline run recorded: they follow from the type
    the job came with; the answer of the classifier is stored and not used. *)
Lemma process_document_steps E t_start t_end job res :
  _process_document E t_start t_end job = Returned res ->
  step_ran "entity_extraction" res = str_in (document_type job) medical_types /\
  (is_Some (field ["entity_extraction"] res) <->
   str_in (document_type job) medical_types = true) /\
  step_ran "document_classification" res = str_in (document_type job) unknown_types /\
  field ["document_type"] res = Some (PStr (document_type job)).
Proof.
  unfold _process_document, get_file_info.
  destruct (path_stat E (file_path job)) as [stat |]; [| discriminate].
  outcome_simpl. cbv zeta.
  destruct (str_in (document_type job) unknown_types);
    destruct (str_in (document_type job) medical_types);
    outcome_simpl;
    repeat match goal with
    | |- context [py_get ?a ?b ?c] => destruct (py_get a b c); outcome_simpl
    end;
    try discriminate;
    match goal with
    | |- context [_calculate_confidence_score ?d] =>
        destruct (_calculate_confidence_score d) as [conf | e]
    end;
    outcome_simpl;
    try discriminate;
    intros [= <-];
    (split; [reflexivity |]);
    (split; [cbn; split; [try reflexivity; intros [x Hx]; discriminate Hx
                         | try discriminate; eauto]
            | split; reflexivity]).
Qed.

Lemma unknown_not_medical (t : string) :
  str_in t unknown_types = true -> str_in t medical_types = false.
Proof.
  unfold str_in, unknown_types, medical_types. simpl.
  rewrite !orb_false_r, orb_true_iff.
  intros [H | H]; apply String.eqb_eq in H; subst t; reflexivity.
Qed.

(** A finished pipeline run carries the [datetime] objects of
    [get_file_info]: its result cannot be encoded. *)
Lemma process_document_not_encodable E t_start t_end job res :
  _process_document E t_start t_end job = Returned res ->
  json_ok res = false.
Proof.
  unfold _process_document, get_file_info.
  destruct (path_stat E (file_path job)) as [stat |]; [| discriminate].
  outcome_simpl. cbv zeta.
  destruct (str_in (document_type job) unknown_types);
    destruct (str_in (document_type job) medical_types);
    outcome_simpl;
    repeat match goal with
    | |- context [py_get ?a ?b ?c] => destruct (py_get a b c); outcome_simpl
    end;
    try discriminate;
    match goal with
    | |- context [_calculate_confidence_score ?d] =>
        destruct (_calculate_confidence_score d) as [conf | e]
    end;
    outcome_simpl;
    try discriminate;
    intros [= <-]; reflexivity.
Qed.

(** With the AI service down and the file in place, the pipeline returns
    the degraded result. *)
Lemma process_document_degraded E t_start t_end job stat :
  inference_down E ->
  path_stat E (file_path job) = Some stat ->
  match _process_document E t_start t_end job with
  | Returned res => degraded res
  | Raised _ => False
  end.
Proof.
  intros (Hc & Ht & He) Hstat.
  destruct (Hc (file_path job)) as [ec Hec].
  destruct (Ht (file_path job) (document_type job)) as [et Het].
  destruct (He (PStr "") (document_type job)) as [ee Hee].
  unfold _process_document, get_file_info, _classify_document, _extract_text.
  rewrite Hstat, Hec, Het. outcome_simpl. cbv zeta.
  destruct (str_in (document_type job) unknown_types);
    destruct (str_in (document_type job) medical_types);
    cbn [py_get dict_get String.eqb Ascii.eqb Bool.eqb mbind outcome_bind mret outcome_ret];
    unfold _extract_medical_entities; rewrite ?Hee;
    vm_compute; repeat split; try reflexivity;
    intros ents [= <-]; reflexivity.
Qed.

(** A job whose pipeline result cannot be encoded: [complete_job] raises
    at the save, after it has moved the id to the completed index, and the
    executor reports the job with [fail_job]. *)
Lemma process_job_not_encodable E t_start t_end now job r res :
  _process_document E t_start t_end job = Returned res ->
  json_ok res = false ->
  job_data r !! job_id job = Some job ->
  (exists e, complete_job now (job_id job) (Some res) r =
               (Raised e,
                set_completed (zadd (job_id job) now (completed_queue r))
                  (set_processing (zrem (job_id job) (processing_queue r)) r))) /\
  exists msg,
    _process_job E t_start t_end now job r =
      fail_job now (job_id job) msg true
        (set_completed (zadd (job_id job) now (completed_queue r))
           (set_processing (zrem (job_id job) (processing_queue r)) r)).
Proof.
  intros Hdoc Hbad Hj.
  assert (Hc : complete_job now (job_id job) (Some res) r =
               (Raised (TypeError "Object of type datetime is not JSON serializable"),
                set_completed (zadd (job_id job) now (completed_queue r))
                  (set_processing (zrem (job_id job) (processing_queue r)) r))).
  { unfold complete_job, _get_job_data. simpl. rewrite Hj.
    unfold _save_job_data, json_ok_job. simpl. rewrite Hbad. reflexivity. }
  split; [eauto |].
  unfold _process_job. rewrite Hdoc, Hc. eauto.
Qed.

End Pipeline.

(** C9 (as stated, refuted). A job of type ["other"] that the classifier
    reports as a medical report: the pipeline finishes without the entity
    step. *)
Lemma reclassified_report_gets_no_entities : ~ entity_step_claim.
Proof.
  intros H.
  pose (job := mkJob "job-1" 7 "/app/uploads/a.pdf" "other" Processing 0 0 3
                     10 (Some 20) None None None).
  destruct (_process_document classifying_env 20 21 job) as [res | e] eqn:Hdoc;
    [| vm_compute in Hdoc; discriminate Hdoc].
  destruct (H classifying_env 20 21 job res Hdoc) as [_ Hrun].
  vm_compute in Hdoc. injection Hdoc as <-.
  specialize (Hrun eq_refl). vm_compute in Hrun. discriminate Hrun.
Qed.

(** C9 (amended). For every job whose pipeline finishes, the entity
    extraction step runs if and only if the document type the job was
    queued with is in {medical_report, prescription, laboratory_result}.
    The classifier's answer is recorded in the result and never replaces
    the job's type, so a job queued as other or unknown never gets the
    entity step. *)
Theorem entity_step_iff_job_type (E : Env) (t_start t_end : Z)
    (job : ProcessingJob) (res : pyval) :
  _process_document E t_start t_end job = Returned res ->
  (step_ran "entity_extraction" res = true <->
   str_in (document_type job) medical_types = true) /\
  (is_Some (field ["entity_extraction"] res) <->
   str_in (document_type job) medical_types = true) /\
  field ["document_type"] res = Some (PStr (document_type job)) /\
  (str_in (document_type job) unknown_types = true ->
   step_ran "document_classification" res = true /\
   step_ran "entity_extraction" res = false).
Proof.
  intros Hdoc.
  destruct (process_document_steps E t_start t_end job res Hdoc)
    as (Hrun & Hfield & Hclass & Htype).
  split; [now rewrite Hrun |].
  split; [exact Hfield |].
  split; [exact Htype |].
  intros Hu. rewrite Hclass, Hrun. split; [exact Hu |].
  apply unknown_not_medical. exact Hu.
Qed.

Lemma entity_step_iff_job_type_witness :
  exists res,
    _process_document classifying_env 20 21
      (mkJob "job-1" 7 "/app/uploads/a.pdf" "prescription" Processing 0 0 3
             10 (Some 20) None None None) = Returned res /\
    step_ran "entity_extraction" res = true.
Proof.
  destruct (_process_document classifying_env 20 21
              (mkJob "job-1" 7 "/app/uploads/a.pdf" "prescription" Processing 0 0 3
                     10 (Some 20) None None None)) as [res | e] eqn:Hdoc;
    [| vm_compute in Hdoc; discriminate Hdoc].
  exists res. split; [reflexivity |].
  apply (proj2 (proj1 (entity_step_iff_job_type _ _ _ _ _ Hdoc))).
  reflexivity.
Defined.



(** The whole life of that job under the worker: three attempts, each
    ending in the same [TypeError]; the job ends failed. *)
Example degraded_job_ends_failed :
  let job := started 20 (initial_job default_settings 10
               (mkSubmission "job-1" 7 "/app/uploads/a.pdf" "medical_report" 0)) in
  let attempt now r :=
    match get_next_job now r with
    | (Returned (Some j), r1) => snd (_process_job failing_env now now now j r1)
    | (_, r1) => r1
    end in
  let r := attempt 40 (attempt 30 (attempt 20
             (enqueue default_settings 10
                (mkSubmission "job-1" 7 "/app/uploads/a.pdf" "medical_report" 0)
                empty_redis))) in
  status_of r "job-1" = Some Failed /\
  (retry_count <$> job_data r !! "job-1") = Some 3 /\
  (error_message <$> job_data r !! "job-1") =
    Some (Some "Object of type datetime is not JSON serializable").
Proof. vm_compute. repeat split; reflexivity. Qed.

(** A job enqueued at time 0 and dequeued 25 hours later, its record
    expired; the stuck-job cleanup runs an hour after that: four empty
    indices and no record are left. *)
Example expired_job_leaves_no_trace :
  let r := run [Enqueue default_settings 0 "job-1" 7 "/app/uploads/a.pdf" "other" 0;
                Expire "job-1";
                Next (25 * 60 * microseconds_per_minute);
                CleanupStuck default_settings (26 * 60 * microseconds_per_minute) None]
               empty_redis in
  get_queue_stats r = (0, 0, 0, 0) /\ get_job_status "job-1" r = None.
Proof. vm_compute. split; reflexivity. Qed.

(** ** Operations that are about other jobs *)

Section Untouched.

Implicit Types (r : Redis) (id : string) (job : ProcessingJob) (o : op).

Lemma same_membership_refl id r : same_membership id r r.
Proof. unfold same_membership. tauto. Qed.

Lemma same_membership_trans id r1 r2 r3 :
  same_membership id r1 r2 -> same_membership id r2 r3 -> same_membership id r1 r3.
Proof. unfold same_membership. tauto. Qed.

Lemma membership_zadd_other id m sc z :
  m <> id -> (in_index id (zadd m sc z) <-> in_index id z).
Proof. intros Hne. rewrite in_index_zadd. intuition congruence. Qed.

Lemma membership_zrem_other id m z :
  m <> id -> (in_index id (zrem m z) <-> in_index id z).
Proof. intros Hne. rewrite in_index_zrem. intuition congruence. Qed.

Lemma same_membership_save id job r0 r :
  same_membership id r0 r -> same_membership id r0 (snd (_save_job_data job r)).
Proof.
  destruct (save_indices job r) as (P & Q & C & F).
  unfold same_membership. rewrite P, Q, C, F. tauto.
Qed.

Lemma get_next_job_same_membership now r id :
  ~ addresses (Next now) r id -> same_membership id r (snd (get_next_job now r)).
Proof.
  intros Hna. unfold get_next_job.
  destruct (zrange_first_cases (pending_queue r)) as [-> | [[id0 sc] Hz]];
    [apply same_membership_refl |].
  rewrite Hz.
  assert (Hne : id0 <> id) by (intros ->; apply Hna; simpl; eauto).
  assert (M : same_membership id r (moved now id0 r)).
  { unfold same_membership, moved. simpl.
    repeat split; try tauto;
      try (apply membership_zrem_other; exact Hne);
      try (apply membership_zadd_other; exact Hne). }
  change (set_processing _ _) with (moved now id0 r).
  destruct (_get_job_data id0 _) as [job |]; [| exact M].
  match goal with
  | |- context [_save_job_data ?j ?s] =>
      pose proof (same_membership_save id j r s M) as S;
      destruct (_save_job_data j s) as [[u | e] r3]
  end; exact S.
Qed.

Lemma complete_job_same_membership now id0 res r id :
  id0 <> id -> same_membership id r (snd (complete_job now id0 res r)).
Proof.
  intros Hne. unfold complete_job.
  set (r2 := set_completed _ _).
  assert (M : same_membership id r r2).
  { unfold same_membership, r2. simpl.
    repeat split; try tauto;
      try (apply membership_zrem_other; exact Hne);
      try (apply membership_zadd_other; exact Hne). }
  destruct (_get_job_data id0 r2) as [job |]; [| exact M].
  apply same_membership_save. exact M.
Qed.

Lemma fail_job_same_membership now id0 msg retry r id :
  id0 <> id -> same_membership id r (snd (fail_job now id0 msg retry r)).
Proof.
  intros Hne. unfold fail_job.
  destruct (_get_job_data id0 _) as [job |].
  - destruct (retry && _); apply same_membership_save;
      unfold same_membership; simpl;
      repeat split; try tauto;
        try (apply membership_zrem_other; exact Hne);
        try (apply membership_zadd_other; exact Hne).
  - unfold same_membership; simpl.
    repeat split; try tauto; apply membership_zrem_other; exact Hne.
Qed.

Lemma fail_each_same_membership now msg ids id : forall count r,
  ~ In id (map fst ids) ->
  same_membership id r (snd (fail_each now msg ids count r)).
Proof.
  induction ids as [| [id0 sc] ids IH]; simpl; intros count r Hid.
  - apply same_membership_refl.
  - assert (Hne : id0 <> id) by tauto.
    pose proof (fail_job_same_membership now id0 msg true r id Hne) as M.
    destruct (fail_job now id0 msg true r) as [[u | e] r']; simpl in *; [| exact M].
    eapply same_membership_trans; [exact M |]. apply IH. tauto.
Qed.

Lemma purge_each_same_membership ids id : forall count r,
  ~ In id ids -> same_membership id r (snd (purge_each ids count r)).
Proof.
  induction ids as [| id0 ids IH]; simpl; intros count r Hid.
  - apply same_membership_refl.
  - assert (Hne : id0 <> id) by tauto.
    eapply same_membership_trans; [| apply IH; tauto].
    unfold same_membership. simpl.
    repeat split; try tauto; apply membership_zrem_other; exact Hne.
Qed.

Lemma purge_each_other ids id : forall count r,
  ~ In id ids ->
  job_data (snd (purge_each ids count r)) !! id = job_data r !! id.
Proof.
  induction ids as [| id0 ids IH]; simpl; intros count r Hid; [reflexivity |].
  rewrite IH by tauto. simpl. apply lookup_delete_ne. tauto.
Qed.

Lemma step_same_membership o r id :
  ~ addresses o r id -> same_membership id r (step o r).
Proof.
  intros Hna. destruct o; simpl in *.
  - unfold same_membership. simpl.
    repeat split; try tauto; apply membership_zadd_other; exact Hna.
  - apply get_next_job_same_membership. exact Hna.
  - apply complete_job_same_membership. exact Hna.
  - apply fail_job_same_membership. exact Hna.
  - apply fail_each_same_membership. exact Hna.
  - apply purge_each_same_membership. exact Hna.
  - unfold same_membership. simpl. tauto.
Qed.

Lemma step_untouched_record o r id :
  store_inv r -> ~ addresses o r id ->
  job_data (step o r) !! id = job_data r !! id.
Proof.
  intros I Hna. destruct o; simpl in *.
  - apply lookup_insert_ne. exact Hna.
  - apply get_next_job_other; [apply I | exact Hna].
  - apply complete_job_other; [apply I | exact Hna].
  - apply fail_job_other; [apply I | exact Hna].
  - apply fail_each_other; [exact I | exact Hna].
  - apply purge_each_other. exact Hna.
  - apply lookup_delete_ne. exact Hna.
Qed.

Lemma run_untouched id ops : forall r,
  store_inv r -> untouched id ops r ->
  job_data (run ops r) !! id = job_data r !! id /\
  same_membership id r (run ops r).
Proof.
  induction ops as [| o ops IH]; simpl; intros r I Hu.
  - split; [reflexivity | apply same_membership_refl].
  - destruct Hu as [Hna Hu].
    destruct (IH (step o r) (store_inv_step o r I) Hu) as [Hrec Hmem].
    split.
    + unfold run in *. rewrite Hrec. apply step_untouched_record; assumption.
    + eapply same_membership_trans; [| exact Hmem].
      apply step_same_membership. exact Hna.
Qed.

(** *** The priority field *)

Lemma priority_kept_refl id r : priority_kept id r r.
Proof. intros job' H. eauto. Qed.

Lemma priority_kept_trans id r1 r2 r3 :
  priority_kept id r1 r2 -> priority_kept id r2 r3 -> priority_kept id r1 r3.
Proof.
  intros H12 H23 job3 H3.
  destruct (H23 _ H3) as (job2 & H2 & E23).
  destruct (H12 _ H2) as (job1 & H1 & E12).
  exists job1. split; [exact H1 | congruence].
Qed.

Lemma priority_kept_same id r r' :
  job_data r' = job_data r -> priority_kept id r r'.
Proof. intros E job' H. rewrite E in H. eauto. Qed.

Lemma priority_kept_save id r job0 job1 :
  job_data r !! job_id job1 = Some job0 ->
  priority job1 = priority job0 ->
  priority_kept id r (snd (_save_job_data job1 r)).
Proof.
  intros H0 Hp. unfold _save_job_data.
  destruct (json_ok_job job1); simpl; [| apply priority_kept_refl].
  intros job'. simpl. rewrite lookup_insert. case_decide as E.
  - intros [= <-]. exists job0. subst id. auto.
  - eauto.
Qed.

Lemma get_next_job_priority_kept now r id :
  keyed r -> priority_kept id r (snd (get_next_job now r)).
Proof.
  intros K. unfold get_next_job.
  destruct (zrange 0 0 (pending_queue r)) as [| [id0 sc] l];
    [apply priority_kept_refl |].
  destruct (_get_job_data id0 _) as [job |] eqn:Hj;
    [| apply priority_kept_same; reflexivity].
  unfold _get_job_data in Hj. simpl in Hj.
  match goal with
  | |- context [_save_job_data ?j ?s] =>
      pose proof (priority_kept_save id s job j) as S;
      destruct (_save_job_data j s) as [[u | e] r3]
  end; simpl in *;
    (eapply priority_kept_trans; [apply (priority_kept_same id r (moved now id0 r)); reflexivity |]);
    apply S; try reflexivity; rewrite (K _ _ Hj); exact Hj.
Qed.

Lemma complete_job_priority_kept now id0 res r id :
  keyed r -> priority_kept id r (snd (complete_job now id0 res r)).
Proof.
  intros K. unfold complete_job.
  set (r2 := set_completed _ _).
  assert (S : priority_kept id r r2) by (apply priority_kept_same; reflexivity).
  destruct (_get_job_data id0 r2) as [job |] eqn:Hj; [| exact S].
  unfold _get_job_data in Hj. simpl in Hj.
  eapply priority_kept_trans; [exact S |].
  apply (priority_kept_save id r2 job); [| reflexivity].
  simpl. rewrite (K _ _ Hj). exact Hj.
Qed.

Lemma fail_job_priority_kept now id0 msg retry r id :
  keyed r -> priority_kept id r (snd (fail_job now id0 msg retry r)).
Proof.
  intros K. unfold fail_job.
  destruct (_get_job_data id0 _) as [job |] eqn:Hj;
    [| apply priority_kept_same; reflexivity].
  unfold _get_job_data in Hj. simpl in Hj.
  destruct (retry && _);
    (eapply priority_kept_trans;
       [| apply (priority_kept_save id _ job); [| reflexivity]];
       [apply priority_kept_same; reflexivity |]);
    simpl; rewrite (K _ _ Hj); exact Hj.
Qed.

Lemma fail_each_priority_kept now msg ids id : forall count r,
  store_inv r -> priority_kept id r (snd (fail_each now msg ids count r)).
Proof.
  induction ids as [| [id0 sc] ids IH]; simpl; intros count r I.
  - apply priority_kept_refl.
  - pose proof (fail_job_priority_kept now id0 msg true r id (proj1 I)) as P.
    pose proof (store_inv_fail_job now id0 msg true r I) as I'.
    destruct (fail_job now id0 msg true r) as [[u | e] r']; simpl in *; [| exact P].
    eapply priority_kept_trans; [exact P |]. apply IH. exact I'.
Qed.

Lemma purge_each_priority_kept ids id : forall count r,
  priority_kept id r (snd (purge_each ids count r)).
Proof.
  induction ids as [| id0 ids IH]; simpl; intros count r.
  - apply priority_kept_refl.
  - eapply priority_kept_trans; [| apply IH].
    intros job'. simpl. rewrite lookup_delete_Some. intros [_ H]. eauto.
Qed.

Lemma step_priority_kept o r id :
  store_inv r -> enqueues id o = false -> priority_kept id r (step o r).
Proof.
  intros I He. destruct o; simpl in *.
  - intros job'. simpl. apply String.eqb_neq in He.
    rewrite lookup_insert_ne by exact He. eauto.
  - apply get_next_job_priority_kept. apply I.
  - apply complete_job_priority_kept. apply I.
  - apply fail_job_priority_kept. apply I.
  - apply fail_each_priority_kept. exact I.
  - apply purge_each_priority_kept.
  - intros job'. simpl. rewrite lookup_delete_Some. intros [_ H]. eauto.
Qed.

Lemma run_priority_kept id ops : forall r,
  store_inv r ->
  forallb (fun o => negb (enqueues id o)) ops = true ->
  priority_kept id r (run ops r).
Proof.
  induction ops as [| o ops IH]; simpl; intros r I Hall.
  - apply priority_kept_refl.
  - apply andb_true_iff in Hall as [Ho Hall]. apply negb_true_iff in Ho.
    eapply priority_kept_trans; [apply step_priority_kept; eassumption |].
    apply IH; [apply store_inv_step; exact I | exact Hall].
Qed.

End Untouched.

(** ** The retry policy in a queue shared with other jobs *)

Section RetryPolicy.

Implicit Types (r : Redis) (id : string) (job : ProcessingJob).

Lemma reachable_run ops : forall r, reachable r -> reachable (run ops r).
Proof.
  induction ops as [| o ops IH]; simpl; intros r H; [exact H |].
  apply IH. apply reachable_step. exact H.
Qed.

Lemma get_next_job_returns now r job :
  keyed r ->
  fst (get_next_job now r) = Returned (Some job) ->
  in_index (job_id job) (pending_queue r).
Proof.
  intros K. unfold get_next_job.
  destruct (zrange_first_cases (pending_queue r)) as [-> | [[id0 sc] Hz]];
    [discriminate |].
  rewrite Hz. apply zrange_first in Hz as [rest Hp].
  unfold _get_job_data. simpl.
  destruct (job_data r !! id0) as [job0 |] eqn:Hj; [| discriminate].
  destruct (_save_job_data _ _) as [[u | e] r3]; simpl; [| discriminate].
  intros [= <-]. simpl. rewrite (K _ _ Hj), Hp. now left.
Qed.

End RetryPolicy.





(* ===================================================================== *)
(** * Further properties of the queue service *)
(* ===================================================================== *)

(** ** cleanup_old_jobs *)

Section Purge.

Implicit Types (r : Redis) (id : string) (z : zset).

Lemma zscore_In id z sc : zscore id z = Some sc -> In (id, sc) z.
Proof.
  unfold zscore.
  destruct (List.filter _ z) as [| y l] eqn:E; [discriminate |].
  intros [= <-].
  assert (Hy : In y (List.filter (fun y => String.eqb (fst y) id) z))
    by (rewrite E; now left).
  apply filter_In in Hy as [Hy Hm]. apply String.eqb_eq in Hm.
  destruct y as [m s]. simpl in *. now subst m.
Qed.

Lemma nodup_entry_unique id z s1 s2 :
  List.NoDup (zmembers z) -> In (id, s1) z -> In (id, s2) z -> s1 = s2.
Proof.
  unfold zmembers. induction z as [| [m s] z IH]; simpl; intros Hnd H1 H2.
  - contradiction.
  - apply NoDup_cons_iff in Hnd as [Hm Hnd].
    destruct H1 as [E1 | H1], H2 as [E2 | H2].
    + congruence.
    + injection E1 as -> _. elim Hm.
      change id with (fst (id, s2)). now apply in_map.
    + injection E2 as -> _. elim Hm.
      change id with (fst (id, s1)). now apply in_map.
    + now apply IH.
Qed.

Lemma in_zrangebyscore lo hi z y :
  In y (zrangebyscore lo hi z) <-> In y z /\ lo <= snd y <= hi.
Proof.
  unfold zrangebyscore. rewrite filter_In, andb_true_iff, !Z.leb_le. tauto.
Qed.

Lemma purge_each_count ids : forall count r,
  fst (purge_each ids count r) = count + Z.of_nat (List.length ids).
Proof.
  induction ids as [| id ids IH]; intros count r.
  - simpl. lia.
  - cbn [purge_each]. rewrite IH. cbn [List.length]. lia.
Qed.

Lemma purge_each_active ids : forall count r,
  pending_queue (snd (purge_each ids count r)) = pending_queue r /\
  processing_queue (snd (purge_each ids count r)) = processing_queue r.
Proof.
  induction ids as [| id ids IH]; simpl; intros count r; [auto |].
  destruct (IH (count + 1)
              (set_failed (zrem id (failed_queue r))
                 (set_completed (zrem id (completed_queue r))
                    (set_job_data (delete id (job_data r)) r)))) as [P Q].
  simpl in *. split; assumption.
Qed.

Lemma purge_each_gone ids id : forall count r,
  job_data r !! id = None ->
  ~ in_index id (completed_queue r) ->
  ~ in_index id (failed_queue r) ->
  let r' := snd (purge_each ids count r) in
  job_data r' !! id = None /\
  ~ in_index id (completed_queue r') /\ ~ in_index id (failed_queue r').
Proof.
  induction ids as [| id0 ids IH]; simpl; intros count r Hj Hc Hf; [auto |].
  apply IH; simpl.
  - rewrite lookup_delete_None. now right.
  - rewrite in_index_zrem. tauto.
  - rewrite in_index_zrem. tauto.
Qed.

Lemma purge_each_removes ids id : forall count r,
  In id ids ->
  let r' := snd (purge_each ids count r) in
  job_data r' !! id = None /\
  ~ in_index id (completed_queue r') /\ ~ in_index id (failed_queue r').
Proof.
  induction ids as [| id0 ids IH]; simpl; intros count r Hin; [contradiction |].
  destruct (String.eqb_spec id0 id) as [-> | Hne].
  - apply purge_each_gone; simpl.
    + apply lookup_delete_eq.
    + rewrite in_index_zrem. tauto.
    + rewrite in_index_zrem. tauto.
  - apply IH. destruct Hin; [contradiction | assumption].
Qed.

End Purge.

(** X1. The old-job purge removes what is old: a job whose entry in the
    completed or in the failed index has a score between 0 and the cutoff
    [now - days_old] has, after [cleanup_old_jobs], no record and no entry
    in either of the two indices. *)
Theorem cleanup_old_jobs_purges (now days_old : Z) (r : Redis) (id : string)
    (sc : Z) :
  zscore id (completed_queue r) = Some sc \/ zscore id (failed_queue r) = Some sc ->
  0 <= sc <= old_cutoff now days_old ->
  let r' := snd (cleanup_old_jobs now days_old r) in
  get_job_status id r' = None /\
  ~ in_index id (completed_queue r') /\
  ~ in_index id (failed_queue r').
Proof.
  intros Hsc Hrange. unfold cleanup_old_jobs.
  apply purge_each_removes. apply in_app_iff.
  destruct Hsc as [H | H]; [left | right];
    apply zscore_In in H;
    unfold zmembers; change id with (fst (id, sc)); apply in_map;
    apply in_zrangebyscore; split; assumption.
Qed.

Lemma cleanup_old_jobs_purges_witness :
  let r := run [Enqueue default_settings 0 "job-1" 7 "/app/uploads/a.pdf" "other" 0;
                Next 10;
                Complete 20 "job-1" None] empty_redis in
  get_job_status "job-1" (snd (cleanup_old_jobs (8 * microseconds_per_day) 7 r)) = None.
Proof.
  intros r.
  refine (proj1 (cleanup_old_jobs_purges (8 * microseconds_per_day) 7 r "job-1" 20 _ _)).
  - left. vm_compute. reflexivity.
  - vm_compute. split; discriminate.
Defined.

(** X2. The old-job purge keeps what is young: in a reachable state, a
    completed job whose entry is younger than the cutoff and that is not in
    the failed index keeps its record and its entry. The pending and the
    processing index are not touched at all, and the count returned is the
    number of old completed entries plus the number of old failed
    entries. *)
Theorem cleanup_old_jobs_retains (now days_old : Z) (r : Redis) (id : string)
    (sc : Z) :
  reachable r ->
  zscore id (completed_queue r) = Some sc ->
  old_cutoff now days_old < sc ->
  ~ in_index id (failed_queue r) ->
  let r' := snd (cleanup_old_jobs now days_old r) in
  get_job_status id r' = get_job_status id r /\
  in_index id (completed_queue r') /\
  pending_queue r' = pending_queue r /\
  processing_queue r' = processing_queue r /\
  fst (cleanup_old_jobs now days_old r) =
    Z.of_nat (List.length (zrangebyscore 0 (old_cutoff now days_old) (completed_queue r)))
    + Z.of_nat (List.length (zrangebyscore 0 (old_cutoff now days_old) (failed_queue r))).
Proof.
  intros Hreach Hsc Hyoung Hnf. cbv zeta.
  destruct (reachable_indices_wf r Hreach) as (_ & _ & [_ Hnd] & _).
  assert (Hold : ~ addresses (CleanupOld now days_old) r id).
  { simpl. rewrite in_app_iff. intros [H | H].
    - unfold zmembers in H. apply in_map_iff in H as [[m s] [E H]].
      simpl in E. subst m. apply in_zrangebyscore in H as [H Hr]. simpl in Hr.
      pose proof (nodup_entry_unique id _ _ _ Hnd H (zscore_In _ _ _ Hsc)).
      unfold old_cutoff in Hyoung. lia.
    - apply Hnf. unfold zmembers in H. apply in_map_iff in H as [y [E H]].
      apply in_zrangebyscore in H as [H _]. subst id.
      unfold in_index, zmembers. now apply in_map. }
  unfold get_job_status, _get_job_data.
  split; [apply (step_untouched_record (CleanupOld now days_old) r id
                   (reachable_store_inv r Hreach) Hold) |].
  destruct (step_same_membership (CleanupOld now days_old) r id Hold)
    as (_ & _ & Hc & _).
  split.
  { apply Hc. apply zscore_in_index with sc. exact Hsc. }
  unfold cleanup_old_jobs.
  destruct (purge_each_active
              (zmembers (zrangebyscore 0 (now - days_old * microseconds_per_day)
                           (completed_queue r)) ++
               zmembers (zrangebyscore 0 (now - days_old * microseconds_per_day)
                           (failed_queue r))) 0 r) as [P Q].
  split; [exact P |]. split; [exact Q |].
  rewrite purge_each_count. unfold zmembers, old_cutoff.
  rewrite length_app, !length_map. lia.
Qed.

Lemma cleanup_old_jobs_retains_witness :
  let r := run [Enqueue default_settings 0 "job-1" 7 "/app/uploads/a.pdf" "other" 0;
                Next 10;
                Complete (2 * microseconds_per_day) "job-1" None] empty_redis in
  fst (cleanup_old_jobs (8 * microseconds_per_day) 7 r) = 0 /\
  in_index "job-1" (completed_queue (snd (cleanup_old_jobs (8 * microseconds_per_day) 7 r))).
Proof.
  intros r.
  assert (Hreach : reachable r) by (eexists; reflexivity).
  destruct (cleanup_old_jobs_retains (8 * microseconds_per_day) 7 r "job-1"
              (2 * microseconds_per_day) Hreach)
    as (_ & Hin & _ & _ & Hcount).
  - vm_compute. reflexivity.
  - vm_compute. reflexivity.
  - vm_compute. tauto.
  - split; [| exact Hin]. rewrite Hcount. reflexivity.
Defined.

(** ** cleanup_stuck_jobs and what raises *)

Section Reaping.

Implicit Types (r : Redis) (id : string) (z : zset).

Lemma fail_job_returns now id msg retry r :
  encodable r -> fst (fail_job now id msg retry r) = Returned tt.
Proof.
  intros E. destruct (job_data r !! id) as [job |] eqn:Hj.
  - rewrite (fail_job_found now id msg retry r job Hj (E _ _ Hj)). reflexivity.
  - rewrite (fail_job_missing now id msg retry r Hj). reflexivity.
Qed.

Lemma fail_job_processing now id msg retry r :
  processing_queue (snd (fail_job now id msg retry r)) = zrem id (processing_queue r).
Proof.
  unfold fail_job. destruct (_get_job_data id _) as [job |]; [| reflexivity].
  destruct (retry && _);
    match goal with
    | |- context [_save_job_data ?j ?s] =>
        destruct (save_indices j s) as (_ & Q & _)
    end; rewrite Q; reflexivity.
Qed.

Lemma fail_each_spec now msg ids : forall count r,
  store_inv r ->
  fst (fail_each now msg ids count r) =
    Returned (count + Z.of_nat (List.length ids)) /\
  processing_queue (snd (fail_each now msg ids count r)) =
    fold_left (fun z y => zrem (fst y) z) ids (processing_queue r).
Proof.
  induction ids as [| [id sc] ids IH]; intros count r I.
  - simpl. split; [f_equal; lia | reflexivity].
  - cbn [fail_each fold_left List.length].
    pose proof (fail_job_returns now id msg true r (proj2 I)) as Hret.
    pose proof (fail_job_processing now id msg true r) as Hproc.
    pose proof (store_inv_fail_job now id msg true r I) as I'.
    destruct (fail_job now id msg true r) as [[u | e] r1]; simpl in *;
      [| discriminate].
    destruct (IH (count + 1) r1 I') as [Hc Hp].
    rewrite Hc, Hp, Hproc. split; [f_equal; lia | reflexivity].
Qed.

Lemma in_fold_zrem (ids : list (string * Z)) : forall z y,
  In y (fold_left (fun z y => zrem (fst y) z) ids z) <->
  In y z /\ ~ In (fst y) (map fst ids).
Proof.
  induction ids as [| x ids IH]; simpl; intros z y.
  - tauto.
  - rewrite IH, in_zrem. intuition congruence.
Qed.

Lemma filter_none {A : Type} (f : A -> bool) (l : list A) :
  (forall x, In x l -> f x = false) -> List.filter f l = [].
Proof.
  induction l as [| a l IH]; simpl; intros H; [reflexivity |].
  rewrite (H a) by now left. apply IH. intros x Hx. apply H. now right.
Qed.

Lemma get_next_job_returns_value now r :
  encodable r -> exists x, fst (get_next_job now r) = Returned x.
Proof.
  intros E. unfold get_next_job.
  destruct (zrange 0 0 (pending_queue r)) as [| [id sc] l]; [eauto |].
  unfold _get_job_data. simpl.
  destruct (job_data r !! id) as [job |] eqn:Hj; [| eauto].
  unfold _save_job_data, json_ok_job. simpl.
  pose proof (E _ _ Hj) as Hok. unfold json_ok_job in Hok. rewrite Hok. eauto.
Qed.

Lemma get_next_job_absent now r id sc :
  zrange 0 0 (pending_queue r) = [(id, sc)] ->
  job_data r !! id = None ->
  fst (get_next_job now r) = Returned None /\
  pending_queue (snd (get_next_job now r)) = zrem id (pending_queue r) /\
  processing_queue (snd (get_next_job now r)) = zadd id now (processing_queue r) /\
  completed_queue (snd (get_next_job now r)) = completed_queue r /\
  failed_queue (snd (get_next_job now r)) = failed_queue r.
Proof.
  intros Hz Hj. unfold get_next_job. rewrite Hz.
  unfold _get_job_data. simpl. rewrite Hj. simpl. auto.
Qed.

Lemma cleanup_stuck_jobs_returns st now timeout_minutes r :
  store_inv r ->
  exists n, fst (cleanup_stuck_jobs st now timeout_minutes r) = Returned n.
Proof.
  intros I.
  assert (Heq : cleanup_stuck_jobs st now timeout_minutes r =
                fail_each now (timeout_message (effective_timeout st timeout_minutes))
                  (zrangebyscore 0 (stuck_cutoff st now timeout_minutes)
                     (processing_queue r)) 0 r)
    by reflexivity.
  rewrite Heq.
  destruct (fail_each_spec now
              (timeout_message (effective_timeout st timeout_minutes))
              (zrangebyscore 0 (stuck_cutoff st now timeout_minutes)
                 (processing_queue r)) 0 r I) as [Hc _].
  eauto.
Qed.

End Reaping.







(** ** What the status of a record tells *)

Section StatusConsistency.

Implicit Types (r : Redis) (id : string) (job : ProcessingJob).

Lemma status_consistent_keeps id r r' job :
  keeps_membership id r r' ->
  status_consistent r id job -> status_consistent r' id job.
Proof.
  unfold keeps_membership, status_consistent. intros (P & C & F) (Q & D & G).
  split; [| split]; intros Hs.
  - destruct (Q Hs) as (? & ? & ? & ?). auto.
  - destruct (D Hs) as (? & ?). auto.
  - destruct (G Hs) as (? & ? & ?). auto.
Qed.

Lemma consistent_reindexed id0 r r' :
  statuses_consistent r ->
  job_data r' = job_data r ->
  (forall id, id <> id0 -> keeps_membership id r r') ->
  consistent_but id0 r'.
Proof.
  intros S E Hk id job Hne Hj. rewrite E in Hj.
  apply (status_consistent_keeps id r r'); auto.
Qed.

Lemma consistent_all_reindexed r r' :
  statuses_consistent r ->
  job_data r' = job_data r ->
  (forall id, keeps_membership id r r') ->
  statuses_consistent r'.
Proof.
  intros S E Hk id job Hj. rewrite E in Hj.
  apply (status_consistent_keeps id r r'); auto.
Qed.

Lemma consistent_but_weaken id0 r : statuses_consistent r -> consistent_but id0 r.
Proof. intros S id job _ Hj. auto. Qed.

Lemma consistent_but_missing id0 r :
  consistent_but id0 r -> job_data r !! id0 = None -> statuses_consistent r.
Proof.
  intros S Hn id job Hj.
  destruct (String.eqb_spec id id0) as [-> | Hne]; [congruence | auto].
Qed.

Lemma status_consistent_same_indices id job r r' :
  pending_queue r' = pending_queue r ->
  completed_queue r' = completed_queue r ->
  failed_queue r' = failed_queue r ->
  status_consistent r id job -> status_consistent r' id job.
Proof.
  unfold status_consistent. intros -> -> ->. tauto.
Qed.

Lemma consistent_save r job :
  consistent_but (job_id job) r ->
  status_consistent r (job_id job) job ->
  (json_ok_job job = false -> statuses_consistent r) ->
  statuses_consistent (snd (_save_job_data job r)).
Proof.
  intros S Hjob Hraise. unfold _save_job_data.
  destruct (json_ok_job job); simpl; [| auto].
  intros id j. simpl. rewrite lookup_insert. case_decide as E.
  - intros [= <-]. subst id.
    revert Hjob. apply status_consistent_same_indices; reflexivity.
  - intros Hj.
    assert (Hc : status_consistent r id j) by (apply S; auto).
    revert Hc. apply status_consistent_same_indices; reflexivity.
Qed.

Lemma statuses_consistent_enqueue st now id0 doc_id path doc_type prio r :
  statuses_consistent r ->
  statuses_consistent
    (snd (queue_document_processing st now id0 doc_id path doc_type prio r)).
Proof.
  intros S id job. unfold queue_document_processing. simpl.
  rewrite lookup_insert. case_decide as E.
  - intros [= <-]. subst id0. unfold status_consistent. simpl.
    repeat split; try discriminate; auto using self_zadd.
  - intros Hj. apply (status_consistent_keeps id r); [| auto].
    unfold keeps_membership. simpl. auto using keep_zadd.
Qed.

Lemma statuses_consistent_get_next_job now r :
  store_inv r -> statuses_consistent r ->
  statuses_consistent (snd (get_next_job now r)).
Proof.
  intros [K E] S. unfold get_next_job.
  destruct (zrange 0 0 (pending_queue r)) as [| [id0 sc] l]; [exact S |].
  change (set_processing _ _) with (moved now id0 r).
  assert (B : consistent_but id0 (moved now id0 r)).
  { apply (consistent_reindexed id0 r); [exact S | reflexivity |].
    intros id Hne. unfold keeps_membership, moved. simpl.
    repeat split; auto. apply keep_zrem. congruence. }
  unfold _get_job_data. simpl.
  destruct (job_data r !! id0) as [job0 |] eqn:Hj0.
  - pose proof (K _ _ Hj0) as Hid.
    match goal with
    | |- context [_save_job_data ?j ?s] =>
        pose proof (consistent_save s j) as C;
        destruct (_save_job_data j s) as [[u | e] r3]
    end; simpl in *; apply C; try (rewrite Hid; exact B);
      try (unfold status_consistent; simpl; repeat split; discriminate);
      intros Hbad; pose proof (E _ _ Hj0) as Hok;
      unfold json_ok_job in *; simpl in Hbad; congruence.
  - apply (consistent_but_missing id0); [exact B | exact Hj0].
Qed.

Lemma statuses_consistent_complete_job now id0 res r :
  keyed r -> statuses_consistent r ->
  statuses_consistent (snd (complete_job now id0 res r)).
Proof.
  intros K S. unfold complete_job.
  set (r2 := set_completed _ _).
  assert (S2 : statuses_consistent r2).
  { apply (consistent_all_reindexed r); [exact S | reflexivity |].
    intros id. unfold keeps_membership, r2. simpl. auto using keep_zadd. }
  unfold _get_job_data. change (job_data r2) with (job_data r).
  destruct (job_data r !! id0) as [job0 |] eqn:Hj0; [| exact S2].
  pose proof (K _ _ Hj0) as Hid.
  apply consistent_save; simpl.
  - apply consistent_but_weaken. exact S2.
  - rewrite Hid. unfold status_consistent, r2. simpl.
    repeat split; try discriminate. apply self_zadd.
  - intros _. exact S2.
Qed.

Lemma statuses_consistent_fail_job now id0 msg retry r :
  keyed r -> statuses_consistent r ->
  statuses_consistent (snd (fail_job now id0 msg retry r)).
Proof.
  intros K S. unfold fail_job.
  set (r1 := set_processing _ _).
  assert (S1 : statuses_consistent r1).
  { apply (consistent_all_reindexed r); [exact S | reflexivity |].
    intros id. unfold keeps_membership, r1. simpl. tauto. }
  unfold _get_job_data. change (job_data r1) with (job_data r).
  destruct (job_data r !! id0) as [job0 |] eqn:Hj0; [| exact S1].
  pose proof (K _ _ Hj0) as Hid.
  destruct retry; simpl;
    [destruct (retry_count job0 + 1 <? max_retries job0) eqn:Hlt |].
  - set (r2 := set_pending _ _).
    assert (S2 : statuses_consistent r2).
    { apply (consistent_all_reindexed r1); [exact S1 | reflexivity |].
      intros id. unfold keeps_membership, r2. simpl. auto using keep_zadd. }
    apply consistent_save; simpl.
    + apply consistent_but_weaken. exact S2.
    + rewrite Hid. unfold status_consistent, r2. simpl.
      apply Z.ltb_lt in Hlt.
      repeat split; try discriminate; auto using self_zadd.
    + intros _. exact S2.
  - set (r2 := set_failed _ _).
    assert (S2 : statuses_consistent r2).
    { apply (consistent_all_reindexed r1); [exact S1 | reflexivity |].
      intros id. unfold keeps_membership, r2. simpl. auto using keep_zadd. }
    apply consistent_save; simpl.
    + apply consistent_but_weaken. exact S2.
    + rewrite Hid. unfold status_consistent, r2. simpl.
      repeat split; try discriminate. apply self_zadd.
    + intros _. exact S2.
  - set (r2 := set_failed _ _).
    assert (S2 : statuses_consistent r2).
    { apply (consistent_all_reindexed r1); [exact S1 | reflexivity |].
      intros id. unfold keeps_membership, r2. simpl. auto using keep_zadd. }
    apply consistent_save; simpl.
    + apply consistent_but_weaken. exact S2.
    + rewrite Hid. unfold status_consistent, r2. simpl.
      repeat split; try discriminate. apply self_zadd.
    + intros _. exact S2.
Qed.

Lemma statuses_consistent_fail_each now msg ids : forall count r,
  store_inv r -> statuses_consistent r ->
  statuses_consistent (snd (fail_each now msg ids count r)).
Proof.
  induction ids as [| [id0 sc] ids IH]; simpl; intros count r I S; [exact S |].
  pose proof (store_inv_fail_job now id0 msg true r I) as I'.
  pose proof (statuses_consistent_fail_job now id0 msg true r (proj1 I) S) as S'.
  destruct (fail_job now id0 msg true r) as [[u | e] r']; simpl in *; auto.
Qed.

Lemma statuses_consistent_purge_each ids : forall count r,
  statuses_consistent r -> statuses_consistent (snd (purge_each ids count r)).
Proof.
  induction ids as [| id0 ids IH]; simpl; intros count r S; [exact S |].
  apply IH. intros id job. simpl. rewrite lookup_delete_Some. intros [Hne Hj].
  apply (status_consistent_keeps id r); [| auto].
  unfold keeps_membership. simpl. auto using keep_zrem.
Qed.

Lemma statuses_consistent_step o r :
  store_inv r -> statuses_consistent r -> statuses_consistent (step o r).
Proof.
  intros I S. destruct o; simpl.
  - now apply statuses_consistent_enqueue.
  - now apply statuses_consistent_get_next_job.
  - apply statuses_consistent_complete_job; [apply I | exact S].
  - apply statuses_consistent_fail_job; [apply I | exact S].
  - now apply statuses_consistent_fail_each.
  - now apply statuses_consistent_purge_each.
  - intros i job. simpl. rewrite lookup_delete_Some. intros [_ Hj].
    apply (status_consistent_keeps i r);
      [unfold keeps_membership; simpl; tauto | auto].
Qed.

End StatusConsistency.



(** ** The fields no operation writes *)

Section Identity.

Implicit Types (r : Redis) (id : string) (job : ProcessingJob).

Lemma same_identity_refl job : same_identity job job.
Proof. unfold same_identity. repeat split; lia. Qed.

Lemma same_identity_trans a b c :
  same_identity a b -> same_identity b c -> same_identity a c.
Proof.
  unfold same_identity.
  intros (A1 & A2 & A3 & A4 & A5 & A6 & A7 & A8)
         (B1 & B2 & B3 & B4 & B5 & B6 & B7 & B8).
  repeat split; try congruence. lia.
Qed.

Lemma identity_kept_refl id r : identity_kept id r r.
Proof. intros job' H. exists job'. split; [exact H | apply same_identity_refl]. Qed.

Lemma identity_kept_trans id r1 r2 r3 :
  identity_kept id r1 r2 -> identity_kept id r2 r3 -> identity_kept id r1 r3.
Proof.
  intros H12 H23 job3 H3.
  destruct (H23 _ H3) as (job2 & H2 & E23).
  destruct (H12 _ H2) as (job1 & H1 & E12).
  exists job1. split; [exact H1 | eapply same_identity_trans; eassumption].
Qed.

Lemma identity_kept_same id r r' :
  job_data r' = job_data r -> identity_kept id r r'.
Proof.
  intros E job' H. rewrite E in H. exists job'.
  split; [exact H | apply same_identity_refl].
Qed.

Lemma identity_kept_save id r job0 job1 :
  job_data r !! job_id job1 = Some job0 ->
  same_identity job0 job1 ->
  identity_kept id r (snd (_save_job_data job1 r)).
Proof.
  intros H0 Hs. unfold _save_job_data.
  destruct (json_ok_job job1); simpl; [| apply identity_kept_refl].
  intros job'. simpl. rewrite lookup_insert. case_decide as E.
  - intros [= <-]. exists job0. subst id. auto.
  - intros H. exists job'. split; [exact H | apply same_identity_refl].
Qed.

Lemma get_next_job_identity_kept now r id :
  keyed r -> identity_kept id r (snd (get_next_job now r)).
Proof.
  intros K. unfold get_next_job.
  destruct (zrange 0 0 (pending_queue r)) as [| [id0 sc] l];
    [apply identity_kept_refl |].
  destruct (_get_job_data id0 _) as [job |] eqn:Hj;
    [| apply identity_kept_same; reflexivity].
  unfold _get_job_data in Hj. simpl in Hj.
  match goal with
  | |- context [_save_job_data ?j ?s] =>
      pose proof (identity_kept_save id s job j) as S;
      destruct (_save_job_data j s) as [[u | e] r3]
  end; simpl in *;
    (eapply identity_kept_trans;
       [apply (identity_kept_same id r (moved now id0 r)); reflexivity |]);
    apply S; try (rewrite (K _ _ Hj); exact Hj);
    unfold same_identity; simpl; repeat split; lia.
Qed.

Lemma complete_job_identity_kept now id0 res r id :
  keyed r -> identity_kept id r (snd (complete_job now id0 res r)).
Proof.
  intros K. unfold complete_job.
  set (r2 := set_completed _ _).
  assert (S : identity_kept id r r2) by (apply identity_kept_same; reflexivity).
  destruct (_get_job_data id0 r2) as [job |] eqn:Hj; [| exact S].
  unfold _get_job_data in Hj. simpl in Hj.
  eapply identity_kept_trans; [exact S |].
  apply (identity_kept_save id r2 job).
  - simpl. rewrite (K _ _ Hj). exact Hj.
  - unfold same_identity; simpl; repeat split; lia.
Qed.

Lemma fail_job_identity_kept now id0 msg retry r id :
  keyed r -> identity_kept id r (snd (fail_job now id0 msg retry r)).
Proof.
  intros K. unfold fail_job.
  destruct (_get_job_data id0 _) as [job |] eqn:Hj;
    [| apply identity_kept_same; reflexivity].
  unfold _get_job_data in Hj. simpl in Hj.
  destruct (retry && _);
    (eapply identity_kept_trans;
       [| apply (identity_kept_save id _ job)];
       [apply identity_kept_same; reflexivity | |]);
    try (simpl; rewrite (K _ _ Hj); exact Hj);
    unfold same_identity; simpl; repeat split; lia.
Qed.

Lemma fail_each_identity_kept now msg ids id : forall count r,
  store_inv r -> identity_kept id r (snd (fail_each now msg ids count r)).
Proof.
  induction ids as [| [id0 sc] ids IH]; simpl; intros count r I.
  - apply identity_kept_refl.
  - pose proof (fail_job_identity_kept now id0 msg true r id (proj1 I)) as P.
    pose proof (store_inv_fail_job now id0 msg true r I) as I'.
    destruct (fail_job now id0 msg true r) as [[u | e] r']; simpl in *; [| exact P].
    eapply identity_kept_trans; [exact P |]. apply IH. exact I'.
Qed.

Lemma delete_identity_kept id0 id r :
  identity_kept id r (set_job_data (delete id0 (job_data r)) r).
Proof.
  intros job'. simpl. rewrite lookup_delete_Some. intros [_ H].
  exists job'. split; [exact H | apply same_identity_refl].
Qed.

Lemma purge_each_identity_kept ids id : forall count r,
  identity_kept id r (snd (purge_each ids count r)).
Proof.
  induction ids as [| id0 ids IH]; simpl; intros count r.
  - apply identity_kept_refl.
  - eapply identity_kept_trans; [| apply IH].
    eapply identity_kept_trans; [apply (delete_identity_kept id0) |].
    apply identity_kept_same. reflexivity.
Qed.

Lemma step_identity_kept o r id :
  store_inv r -> enqueues id o = false -> identity_kept id r (step o r).
Proof.
  intros I He. destruct o; simpl in *.
  - intros job'. simpl. apply String.eqb_neq in He.
    rewrite lookup_insert_ne by exact He.
    intros H. exists job'. split; [exact H | apply same_identity_refl].
  - apply get_next_job_identity_kept. apply I.
  - apply complete_job_identity_kept. apply I.
  - apply fail_job_identity_kept. apply I.
  - apply fail_each_identity_kept. exact I.
  - apply purge_each_identity_kept.
  - apply delete_identity_kept.
Qed.

Lemma run_identity_kept id ops : forall r,
  store_inv r ->
  forallb (fun o => negb (enqueues id o)) ops = true ->
  identity_kept id r (run ops r).
Proof.
  induction ops as [| o ops IH]; simpl; intros r I Hall.
  - apply identity_kept_refl.
  - apply andb_true_iff in Hall as [Ho Hall]. apply negb_true_iff in Ho.
    eapply identity_kept_trans; [apply step_identity_kept; eassumption |].
    apply IH; [apply store_inv_step; exact I | exact Hall].
Qed.

End Identity.



(** ** complete_job, fail_job and the counts *)

Section Effects.

Implicit Types (r : Redis) (id : string) (job : ProcessingJob) (z : zset).

Lemma zinsert_length x z : List.length (zinsert x z) = S (List.length z).
Proof. apply (Permutation_length (zinsert_perm x z)). Qed.

Lemma zrem_length_in m z :
  List.NoDup (zmembers z) -> in_index m z ->
  S (List.length (zrem m z)) = List.length z.
Proof.
  unfold in_index, zmembers, zrem.
  induction z as [| y z IH]; simpl; intros Hnd Hin; [contradiction |].
  apply NoDup_cons_iff in Hnd as [Hy Hnd].
  destruct (String.eqb_spec (fst y) m) as [E | N]; simpl.
  - f_equal. fold (zrem m z). rewrite zrem_fresh; [reflexivity |].
    unfold in_index, zmembers. now rewrite <- E.
  - f_equal. apply IH; [exact Hnd |]. destruct Hin; [contradiction | assumption].
Qed.

Lemma zmem_in_index m z : zmem m z = true <-> in_index m z.
Proof.
  unfold zmem, in_index, zmembers. rewrite existsb_exists, in_map_iff.
  split; intros [y [H1 H2]]; exists y.
  - apply String.eqb_eq in H2. auto.
  - split; [exact H2 | now apply String.eqb_eq].
Qed.

Lemma zadd_card m sc z :
  List.NoDup (zmembers z) ->
  zcard (zadd m sc z) = zcard z + (if zmem m z then 0 else 1).
Proof.
  intros Hnd. unfold zcard, zadd. rewrite zinsert_length.
  destruct (zmem m z) eqn:E.
  - apply zmem_in_index in E. rewrite <- (zrem_length_in m z Hnd E). lia.
  - rewrite zrem_fresh; [lia |].
    intros H. apply zmem_in_index in H. congruence.
Qed.

Lemma zinsert_first x z :
  (forall y, In y z -> zlt x y) -> zinsert x z = x :: z.
Proof.
  destruct z as [| y z]; simpl; intros H; [reflexivity |].
  unfold zlt in H. now rewrite (H y) by now left.
Qed.

End Effects.





(** X10. [get_next_job] moves one id: in a reachable state with a
    non-empty pending index, the pending index loses its first entry and
    nothing else, so that the pending count of [get_queue_stats] goes down
    by one; the processing count goes up by one (or stays, when the id was
    still in the processing index), and the completed and failed counts do
    not change. *)
Theorem get_next_job_counts (now : Z) (r : Redis) (id : string) (sc : Z)
    (rest : zset) :
  reachable r ->
  pending_queue r = (id, sc) :: rest ->
  let r' := snd (get_next_job now r) in
  pending_queue r' = rest /\
  get_queue_stats r' =
    (zcard (pending_queue r) - 1,
     zcard (processing_queue r) + (if zmem id (processing_queue r) then 0 else 1),
     zcard (completed_queue r),
     zcard (failed_queue r)).
Proof.
  intros Hreach Hp. cbv zeta.
  destruct (reachable_store_inv r Hreach) as [K E].
  destruct (reachable_indices_wf r Hreach) as ([_ Hndp] & [_ Hndq] & _).
  assert (Hrest : zrem id (pending_queue r) = rest).
  { rewrite Hp. apply zrem_head. rewrite Hp in Hndp. simpl in Hndp.
    apply NoDup_cons_iff in Hndp. tauto. }
  assert (Hstate : pending_queue (snd (get_next_job now r)) = rest /\
                   processing_queue (snd (get_next_job now r)) =
                     zadd id now (processing_queue r) /\
                   completed_queue (snd (get_next_job now r)) = completed_queue r /\
                   failed_queue (snd (get_next_job now r)) = failed_queue r).
  { destruct (job_data r !! id) as [job |] eqn:Hj.
    - rewrite (get_next_job_found now r id sc rest job Hp Hj (E _ _ Hj)).
      simpl. rewrite Hrest. auto.
    - assert (Hz : zrange 0 0 (pending_queue r) = [(id, sc)])
        by (apply zrange_first; eauto).
      destruct (get_next_job_absent now r id sc Hz Hj)
        as (_ & H1 & H2 & H3 & H4).
      rewrite H1, H2, H3, H4, Hrest. auto. }
  destruct Hstate as (H1 & H2 & H3 & H4).
  split; [exact H1 |].
  unfold get_queue_stats. rewrite H1, H2, H3, H4.
  rewrite (zadd_card id now _ Hndq). rewrite Hp. unfold zcard. simpl List.length.
  repeat f_equal. lia.
Qed.

Lemma get_next_job_counts_witness :
  let r := run [Enqueue default_settings 0 "job-1" 7 "/app/uploads/a.pdf" "other" 0;
                Enqueue default_settings 1 "job-2" 8 "/app/uploads/b.pdf" "other" 3]
               empty_redis in
  get_queue_stats (snd (get_next_job 10 r)) = (1, 1, 0, 0).
Proof.
  intros r.
  assert (Hreach : reachable r) by (eexists; reflexivity).
  destruct (get_next_job_counts 10 r "job-2" (-3) [("job-1", 0)] Hreach eq_refl)
    as [_ H].
  rewrite H. reflexivity.
Defined.



(** ** The pipeline of the worker *)

Section Worker.

Implicit Types (E : Env) (job : ProcessingJob) (r : Redis).

Ltac outcome_cbn := cbn [mbind outcome_bind mret outcome_ret].

Lemma round_half_even_le (y : Q) (k : Z) :
  (y <= inject_Z k)%Q -> round_half_even y <= k.
Proof.
  intros H. pose proof (round_half_even_close y) as [_ Hc].
  assert (Hlt : (inject_Z (round_half_even y) < inject_Z (k + 1))%Q).
  { rewrite inject_Z_plus. change (inject_Z 1) with 1%Q. lra. }
  rewrite <- Zlt_Qlt in Hlt. lia.
Qed.

Lemma round_half_even_ge (y : Q) (k : Z) :
  (inject_Z k <= y)%Q -> k <= round_half_even y.
Proof.
  intros H. pose proof (round_half_even_close y) as [Hc _].
  assert (Hlt : (inject_Z (k - 1) < inject_Z (round_half_even y))%Q).
  { unfold Z.sub. rewrite inject_Z_plus, inject_Z_opp.
    change (inject_Z 1) with 1%Q. lra. }
  rewrite <- Zlt_Qlt in Hlt. lia.
Qed.

Lemma py_round4_le_1 (x : Q) : (x <= 1)%Q -> (py_round4 x <= 1)%Q.
Proof.
  intros H. unfold py_round4. rewrite Qred_correct.
  apply Qle_shift_div_r; [reflexivity |]. rewrite Qmult_1_l.
  change 10000%Q with (inject_Z 10000). rewrite <- Zle_Qle.
  apply round_half_even_le. change (inject_Z 10000) with 10000%Q. lra.
Qed.

Lemma py_round4_ge_0 (x : Q) : (0 <= x)%Q -> (0 <= py_round4 x)%Q.
Proof.
  intros H. unfold py_round4. rewrite Qred_correct.
  apply Qle_shift_div_l; [reflexivity |]. rewrite Qmult_0_l.
  change 0%Q with (inject_Z 0). rewrite <- Zle_Qle.
  apply round_half_even_ge. change (inject_Z 0) with 0%Q. lra.
Qed.

Lemma quality_score_le_1 (len : Z) (c : Q) : (quality_score len c <= 1)%Q.
Proof. rewrite quality_score_Qmin. apply Q.le_min_l. Qed.

Lemma assessment_known (score : Q) :
  In (assessment score) ["good"; "fair"; "poor"] /\ assessment score <> "unknown".
Proof.
  unfold assessment.
  destruct (Qle_bool (7 # 10) score); [simpl; split; [tauto | discriminate] |].
  destruct (Qle_bool (1 # 2) score); simpl; (split; [tauto | discriminate]).
Qed.

Lemma collect_score_unit key fld res scores :
  scored key fld res -> Forall unit_score scores ->
  exists scores', collect_score key fld res scores = Returned scores' /\
                  Forall unit_score scores'.
Proof.
  intros Hs Hu. unfold collect_score.
  destruct (dict_get key res) as [sub |] eqn:Hk.
  - destruct (Hs sub Hk) as (v & -> & Hv). outcome_cbn.
    eexists. split; [reflexivity |].
    apply Forall_app. split; [exact Hu | now constructor].
  - eauto.
Qed.

Lemma py_sum_unit scores :
  Forall unit_score scores ->
  exists total, py_sum scores = Returned total /\
    (0 <= total <= inject_Z (Z.of_nat (List.length scores)))%Q.
Proof.
  induction 1 as [| v scores (q & Hq & Hb) _ (total & Ht & Hb')];
    cbn [py_sum List.length].
  - exists 0%Q. split; [reflexivity | split; apply Qle_refl].
  - rewrite Hq, Ht. outcome_cbn. exists (q + total)%Q.
    split; [reflexivity |].
    rewrite Nat2Z.inj_succ. unfold Z.succ. rewrite inject_Z_plus.
    change (inject_Z 1) with 1%Q. lra.
Qed.

End Worker.

(** X12. Whatever the text extraction step handed over, [_assess_quality]
    returns an assessment: its quality score is a number that never exceeds
    1, its verdict is one of good, fair, poor and unknown, and the verdict is
    unknown exactly when the assessment records an error, in which case the
    score is 0. *)
Theorem assess_quality_total (E : Env) (path : string) (extraction_result : pyval) :
  let a := _assess_quality E path extraction_result in
  exists (q : Q) (verdict : string),
    field ["quality_score"] a = Some (PFloat q) /\
    (q <= 1)%Q /\
    field ["assessment"] a = Some (PStr verdict) /\
    In verdict ["good"; "fair"; "poor"; "unknown"] /\
    (verdict = "unknown" <-> is_Some (field ["error"] a)) /\
    (verdict = "unknown" -> q = 0%Q).
Proof.
  cbv zeta. unfold _assess_quality.
  assert (Hbad : forall e,
    let a := PDict [("quality_score", PFloat 0); ("assessment", PStr "unknown");
                    ("error", PStr (exn_str E e))] in
    exists (q : Q) (verdict : string),
      field ["quality_score"] a = Some (PFloat q) /\
      (q <= 1)%Q /\
      field ["assessment"] a = Some (PStr verdict) /\
      In verdict ["good"; "fair"; "poor"; "unknown"] /\
      (verdict = "unknown" <-> is_Some (field ["error"] a)) /\
      (verdict = "unknown" -> q = 0%Q)).
  { intros e. cbv zeta. exists 0%Q, "unknown".
    split; [reflexivity |]. split; [discriminate |]. split; [reflexivity |].
    split; [simpl; tauto |]. split; [| reflexivity].
    split; [intros _; eexists; reflexivity | reflexivity]. }
  destruct (py_get extraction_result "text" (PStr "")) as [text | e];
    [| apply Hbad].
  cbn [mbind outcome_bind mret outcome_ret].
  destruct (py_len text) as [len | e]; [| apply Hbad].
  cbn [mbind outcome_bind mret outcome_ret].
  destruct (py_get extraction_result "confidence" (PFloat 0)) as [conf | e];
    [| apply Hbad].
  cbn [mbind outcome_bind mret outcome_ret].
  destruct (py_num conf) as [c | e]; [| apply Hbad].
  cbn [mbind outcome_bind mret outcome_ret].
  destruct (assessment_known (quality_score len c)) as [Hin Hne].
  exists (py_round4 (quality_score len c)), (assessment (quality_score len c)).
  split; [reflexivity |].
  split; [apply py_round4_le_1, quality_score_le_1 |].
  split; [reflexivity |].
  split; [simpl in Hin |- *; tauto |].
  split; [| intros H; contradiction].
  split; [intros H; contradiction |].
  intros [v Hv]. discriminate Hv.
Qed.

Lemma assess_quality_total_witness :
  exists (q : Q) (verdict : string),
    field ["quality_score"]
      (_assess_quality classifying_env "/app/uploads/a.pdf" (PList [])) =
      Some (PFloat q) /\
    (q <= 1)%Q /\
    field ["assessment"]
      (_assess_quality classifying_env "/app/uploads/a.pdf" (PList [])) =
      Some (PStr verdict) /\
    In verdict ["good"; "fair"; "poor"; "unknown"] /\
    (verdict = "unknown" <->
     is_Some (field ["error"]
                (_assess_quality classifying_env "/app/uploads/a.pdf" (PList [])))) /\
    (verdict = "unknown" -> q = 0%Q).
Proof.
  exact (assess_quality_total classifying_env "/app/uploads/a.pdf" (PList [])).
Defined.



(** X14. The steps a pipeline run records, in order: file validation,
    then classification for a job of type other or unknown, then text
    extraction, then entity extraction for a job of a medical type, then
    quality assessment; the list depends on the type of the job alone. *)
Theorem process_document_step_order (E : Env) (t_start t_end : Z)
    (job : ProcessingJob) (res : pyval) :
  _process_document E t_start t_end job = Returned res ->
  field ["steps_completed"] res =
    Some (PList (map PStr (expected_steps (document_type job)))).
Proof.
  unfold _process_document, get_file_info, expected_steps.
  destruct (path_stat E (file_path job)) as [stat |]; [| discriminate].
  cbn [mbind outcome_bind mret outcome_ret]. cbv zeta.
  destruct (str_in (document_type job) unknown_types);
    destruct (str_in (document_type job) medical_types);
    cbn [mbind outcome_bind mret outcome_ret];
    repeat match goal with
    | |- context [py_get ?a ?b ?c] =>
        destruct (py_get a b c); cbn [mbind outcome_bind mret outcome_ret]
    end;
    try discriminate;
    match goal with
    | |- context [_calculate_confidence_score ?d] =>
        destruct (_calculate_confidence_score d) as [conf | e]
    end;
    cbn [mbind outcome_bind mret outcome_ret];
    try discriminate;
    intros [= <-]; reflexivity.
Qed.

Lemma process_document_step_order_witness :
  exists res,
    _process_document classifying_env 0 1000000
      (mkJob "job-1" 7 "/app/uploads/a.pdf" "prescription" Processing 0 0 3 0
             (Some 0) None None None) = Returned res /\
    field ["steps_completed"] res =
      Some (PList [PStr "file_validation"; PStr "text_extraction";
                   PStr "entity_extraction"; PStr "quality_assessment"]).
Proof.
  eexists. split; [vm_compute; reflexivity |].
  etransitivity; [apply (process_document_step_order classifying_env 0 1000000
    (mkJob "job-1" 7 "/app/uploads/a.pdf" "prescription" Processing 0 0 3 0
           (Some 0) None None None)); vm_compute; reflexivity |].
  reflexivity.
Defined.



(** ** The scheduling loop *)

Section Scheduling.

Implicit Types (st : Settings) (w : Loop) (ticks : list Tick).

Lemma run_app ops1 ops2 (r : Redis) :
  run (ops1 ++ ops2) r = run ops2 (run ops1 r).
Proof. unfold run. apply fold_left_app. Qed.

Lemma loop_iteration_bounded st now done w :
  Z.of_nat (List.length (processing_jobs w)) <= max_concurrent_jobs st ->
  Z.of_nat (List.length (processing_jobs (fst (loop_iteration st now done w))))
    <= max_concurrent_jobs st.
Proof.
  intros H. unfold loop_iteration.
  destruct (Z.ltb_spec (Z.of_nat (List.length (processing_jobs w)))
                       (max_concurrent_jobs st)) as [Hlt | Hge]; [| exact H].
  destruct (get_next_job now (loop_redis w)) as [[[job |] | e] r']; simpl;
    try exact H.
  rewrite List.length_app. simpl.
  pose proof (List.filter_length_le (fun t => negb (done t)) (processing_jobs w)).
  lia.
Qed.

Lemma loop_iteration_saturated st now done w :
  max_concurrent_jobs st <= Z.of_nat (List.length (processing_jobs w)) ->
  loop_iteration st now done w = (w, None).
Proof.
  intros H. unfold loop_iteration.
  destruct (Z.ltb_spec (Z.of_nat (List.length (processing_jobs w)))
                       (max_concurrent_jobs st)); [lia | reflexivity].
Qed.

End Scheduling.

(** X16. The worker never tracks more tasks than [max_concurrent_jobs]:
    started with at most that many, [_processing_loop] keeps the size of
    [processing_jobs] within the bound, whatever the clock, the tasks that
    finished and the other users of the queue do between two iterations. *)
Theorem processing_loop_bounded (st : Settings) (ticks : list Tick) (w : Loop) :
  Z.of_nat (List.length (processing_jobs w)) <= max_concurrent_jobs st ->
  Z.of_nat (List.length (processing_jobs (loop_run st ticks w)))
    <= max_concurrent_jobs st.
Proof.
  revert w. induction ticks as [| t ticks IH]; simpl; intros w H; [exact H |].
  apply IH. apply loop_iteration_bounded. exact H.
Qed.

Lemma processing_loop_bounded_witness :
  let r := run [Enqueue default_settings 0 "job-1" 7 "/app/uploads/a.pdf" "other" 0;
                Enqueue default_settings 1 "job-2" 8 "/app/uploads/b.pdf" "other" 0]
               empty_redis in
  Z.of_nat (List.length (processing_jobs
    (loop_run default_settings
       [mkTick 10 (fun _ => false) []; mkTick 20 (fun _ => false) []]
       (mkLoop [] 0 r)))) <= 5.
Proof.
  intros r.
  apply (processing_loop_bounded default_settings
           [mkTick 10 (fun _ => false) []; mkTick 20 (fun _ => false) []]
           (mkLoop [] 0 r)).
  simpl. lia.
Defined.

(** X17. A saturated worker stays saturated: finished tasks are dropped
    from [processing_jobs] only in an iteration that dequeued a job, and a
    job is dequeued only below the bound. So once [processing_jobs] holds
    [max_concurrent_jobs] tasks, no later iteration changes it or dequeues
    anything, even when every task has finished: the Redis state is from
    then on what the other users of the queue make of it. *)
Theorem processing_loop_saturated (st : Settings) (ticks : list Tick) (w : Loop) :
  max_concurrent_jobs st <= Z.of_nat (List.length (processing_jobs w)) ->
  processing_jobs (loop_run st ticks w) = processing_jobs w /\
  fresh (loop_run st ticks w) = fresh w /\
  loop_redis (loop_run st ticks w) = run (others ticks) (loop_redis w).
Proof.
  revert w. induction ticks as [| t ticks IH]; intros w H.
  - simpl. auto.
  - simpl loop_run. rewrite loop_iteration_saturated by exact H. cbn [fst].
    destruct (IH (mkLoop (processing_jobs w) (fresh w)
                         (run (tick_others t) (loop_redis w))) H)
      as (H1 & H2 & H3).
    rewrite H1, H2, H3. unfold others. simpl. rewrite run_app. auto.
Qed.

Lemma processing_loop_saturated_witness :
  let ids := ["job-1"; "job-2"; "job-3"; "job-4"; "job-5"; "job-6"] in
  let r := run (map (fun id => Enqueue default_settings 0 id 7 "/app/uploads/a.pdf"
                                 "other" 0) ids) empty_redis in
  let busy := map (fun t => mkTick t (fun _ => false) []) [10; 20; 30; 40; 50] in
  let idle := map (fun t => mkTick t (fun _ => true) []) [60; 70; 80] in
  let w := loop_run default_settings busy (mkLoop [] 0 r) in
  processing_jobs w = [0; 1; 2; 3; 4]%nat /\
  processing_jobs (loop_run default_settings idle w) = [0; 1; 2; 3; 4]%nat /\
  zmembers (pending_queue (loop_redis (loop_run default_settings idle w)))
    = ["job-6"].
Proof.
  intros ids r busy idle w.
  assert (Hw : processing_jobs w = [0; 1; 2; 3; 4]%nat) by (vm_compute; reflexivity).
  assert (Hp : zmembers (pending_queue (loop_redis w)) = ["job-6"])
    by (vm_compute; reflexivity).
  destruct (processing_loop_saturated default_settings idle w) as (H1 & _ & H3).
  - rewrite Hw. simpl. lia.
  - rewrite H1, H3. auto.
Defined.
